(** * MC_TRANSLATOR: the log-to-translation pipeline, embedded in Rocq

    Source files:
      - [minecraft_translator_complete_enhanced.py]: [Language],
        [LanguageDetector], [MessageFilter], [EnhancedMinecraftLogMonitor],
        and the Tk dispatcher [_auto_translate_message];
      - [ui/main_window.py]: the Qt dispatcher [MainWindow.on_log] and
        [MainWindow._translate_core].

    A Python [str] is a sequence of Unicode code points: texts are [list Z].
    The regular expressions of the source are transcribed, one by one, into
    a small abstract syntax and run by a backtracking matcher that follows
    the search order of Python's [re] module (leftmost, alternatives in
    order, greedy before lazy). *)

From Stdlib Require Import ZArith List Bool Lia String Ascii QArith.
From stdpp Require Import gmap.
Import ListNotations.

Local Open Scope nat_scope.

(** ** Texts *)

Definition text := list Z.

(** An ASCII literal of the source as a list of code points. *)
Definition s (x : string) : text :=
  map (fun a => Z.of_N (N_of_ascii a)) (list_ascii_of_string x).
Arguments s x%_string.

Definition text_eqb (a b : text) : bool := bool_decide (a = b).

(** [str.isspace] on one code point, which is also what [\s] matches on a
    [str] pattern: the code points of bidirectional class WS, B or S and of
    category Zs. *)
Definition is_space (c : Z) : bool :=
  ((0x09 <=? c) && (c <=? 0x0D) || (0x1C <=? c) && (c <=? 0x20)
   || (c =? 0x85) || (c =? 0xA0) || (c =? 0x1680)
   || (0x2000 <=? c) && (c <=? 0x200A)
   || (c =? 0x2028) || (c =? 0x2029) || (c =? 0x202F) || (c =? 0x205F)
   || (c =? 0x3000))%Z.

Fixpoint lstrip (t : text) : text :=
  match t with
  | c :: t' => if is_space c then lstrip t' else t
  | [] => []
  end.

Definition rstrip (t : text) : text := rev (lstrip (rev t)).

(** [str.strip()] *)
Definition strip (t : text) : text := rstrip (lstrip t).

(** [str.replace(old, '')] for a one-character [old]. *)
Definition remove_char (c : Z) (t : text) : text :=
  List.filter (fun x => negb (x =? c)%Z) t.

(** Python's truth value of a string. *)
Definition truthy (t : text) : bool :=
  match t with [] => false | _ => true end.

(** ** The Unicode character database

    [str.lower], the classes [\w] and [\d] and case-insensitive matching
    read tables of the Python runtime that are not part of the repository.
    They are parameters of the development; no property of them is assumed. *)

Class UnicodeData := {
  (** [str.lower()] *)
  str_lower : text -> text;
  (** [\w] on a [str] pattern: alphanumeric or underscore *)
  is_word : Z -> bool;
  (** [\d] on a [str] pattern: a decimal digit of any script *)
  is_decimal : Z -> bool;
  (** [icase x c]: under [re.IGNORECASE] the cased pattern character [x]
      matches the text character [c] *)
  icase : Z -> Z -> bool;
}.

(** ** Regular expressions *)

Inductive re : Type :=
| Eps : re
| Chr : (Z -> bool) -> re              (* one character of a class *)
| Seq : re -> re -> re
| Alt : re -> re -> re
| Rep : bool -> nat -> option nat -> re -> re   (* greedy?, min, max *)
| Grp : nat -> re -> re                (* capturing group number n *)
| Bol : re                             (* ^ (no MULTILINE) *)
| Eol : re                             (* $ (no MULTILINE) *)
| Wb : re                              (* \b *)
| Ahead : re -> re                     (* (?=...) *)
| NotBehind : (Z -> bool) -> re.       (* (?<!c) for a one-character class *)

(** The matcher's position: the text already passed (nearest character
    first), the text ahead, and the groups captured so far. *)
Record mstate := MState {
  before : list Z;
  after : list Z;
  caps : list (nat * text);
}.

Definition advance (c : Z) (rest : list Z) (st : mstate) : mstate :=
  MState (c :: before st) rest (caps st).

Definition shorter (st' st : mstate) : bool :=
  length (after st') <? length (after st).

Definition below (i : nat) (hi : option nat) : bool :=
  match hi with Some h => i <? h | None => true end.

Definition set_cap (n : nat) (st0 st' : mstate) : mstate :=
  MState (before st') (after st')
    ((n, firstn (length (after st0) - length (after st')) (after st0)) :: caps st').

Fixpoint get_cap (n : nat) (cs : list (nat * text)) : option text :=
  match cs with
  | (i, t) :: cs' => if i =? n then Some t else get_cap n cs'
  | [] => None
  end.

Definition at_eol (st : mstate) : bool :=
  match after st with
  | [] => true
  | [c] => (c =? 10)%Z
  | _ => false
  end.

(** The iterations of a repetition [body{lo,hi}] after [i] of them: a
    greedy one tries another iteration before it tries to stop, a lazy one
    the other way round. The loop is bounded by the length of the text
    ahead, since every iteration has to consume a character (the repeated
    bodies of the source's patterns never match the empty string). *)
Fixpoint rep_loop (body : mstate -> (mstate -> option mstate) -> option mstate)
    (greedy : bool) (lo : nat) (hi : option nat)
    (k : mstate -> option mstate) (fuel i : nat) (st : mstate)
  : option mstate :=
  match fuel with
  | O => None
  | S fuel' =>
      let again (_ : unit) :=
        if below i hi
        then body st (fun st' =>
               if shorter st' st
               then rep_loop body greedy lo hi k fuel' (S i) st'
               else None)
        else None in
      let stop (_ : unit) := if lo <=? i then k st else None in
      if greedy then
        match again tt with
        | Some x => Some x
        | None => stop tt
        end
      else
        match stop tt with
        | Some x => Some x
        | None => again tt
        end
  end.

Section Matcher.
Context {U : UnicodeData}.

Definition word_at (l : list Z) : bool :=
  match l with c :: _ => is_word c | [] => false end.

(** [m r st k]: match [r] at [st] and hand the position reached to the
    continuation [k]; when [k] fails the matcher backtracks into [r]. *)
Fixpoint m (r : re) (st : mstate) (k : mstate -> option mstate)
  {struct r} : option mstate :=
  match r with
  | Eps => k st
  | Chr p =>
      match after st with
      | c :: rest => if p c then k (advance c rest st) else None
      | [] => None
      end
  | Seq a b => m a st (fun st' => m b st' k)
  | Alt a b =>
      match m a st k with
      | Some x => Some x
      | None => m b st k
      end
  | Rep greedy lo hi a =>
      rep_loop (m a) greedy lo hi k (S (length (after st))) 0 st
  | Grp n a => m a st (fun st' => k (set_cap n st st'))
  | Bol => match before st with [] => k st | _ => None end
  | Eol => if at_eol st then k st else None
  | Wb => if xorb (word_at (before st)) (word_at (after st)) then k st else None
  | Ahead a =>
      match m a st Some with
      | Some _ => k st
      | None => None
      end
  | NotBehind p =>
      match before st with
      | c :: _ => if p c then None else k st
      | [] => k st
      end
  end.

(** One attempt of the pattern at a position. *)
Definition match_here (r : re) (bef aft : list Z) : option mstate :=
  m r (MState bef aft []) Some.

(** [re.match]: at the start of the text only. *)
Definition re_match (r : re) (t : text) : option mstate :=
  match_here r [] t.

(** [re.search]: the leftmost position at which the pattern matches. *)
Fixpoint search_from (r : re) (bef aft : list Z) : option mstate :=
  match match_here r bef aft with
  | Some st => Some st
  | None =>
      match aft with
      | c :: aft' => search_from r (c :: bef) aft'
      | [] => None
      end
  end.

Definition re_search (r : re) (t : text) : option mstate :=
  search_from r [] t.

Definition found (r : re) (t : text) : bool :=
  match re_search r t with Some _ => true | None => false end.

(** [re.sub(r, '', t)]: every non-overlapping match, left to right, is
    deleted. A match of the empty string deletes nothing. *)
Fixpoint sub_from (fuel : nat) (r : re) (bef aft : list Z) : text :=
  match fuel with
  | O => aft
  | S fuel' =>
      match match_here r bef aft with
      | Some st' =>
          if length (after st') <? length aft
          then sub_from fuel' r (before st') (after st')
          else match aft with
               | c :: aft' => c :: sub_from fuel' r (c :: bef) aft'
               | [] => []
               end
      | None =>
          match aft with
          | c :: aft' => c :: sub_from fuel' r (c :: bef) aft'
          | [] => []
          end
      end
  end.

Definition re_sub (r : re) (t : text) : text :=
  sub_from (S (length t)) r [] t.

(** [len(re.findall(r, t))]: the number of non-overlapping matches. *)
Fixpoint count_from (fuel : nat) (r : re) (bef aft : list Z) : nat :=
  match fuel with
  | O => 0
  | S fuel' =>
      match match_here r bef aft with
      | Some st' =>
          if length (after st') <? length aft
          then S (count_from fuel' r (before st') (after st'))
          else match aft with
               | c :: aft' => S (count_from fuel' r (c :: bef) aft')
               | [] => 1
               end
      | None =>
          match aft with
          | c :: aft' => count_from fuel' r (c :: bef) aft'
          | [] => 0
          end
      end
  end.

Definition findall_count (r : re) (t : text) : nat :=
  count_from (S (length t)) r [] t.

End Matcher.

(** ** Writing patterns *)

Definition cat (rs : list re) : re := fold_right Seq Eps rs.

Definition alts (rs : list re) : re :=
  match rs with
  | [] => Eps
  | r :: rs' => fold_left Alt rs' r
  end.

Definition star : re -> re := Rep true 0 None.
Definition plus : re -> re := Rep true 1 None.
Definition lazy_star : re -> re := Rep false 0 None.
Definition times (n : nat) : re -> re := Rep true n (Some n).
Definition between (lo hi : nat) : re -> re := Rep true lo (Some hi).

(** Character classes. *)
Definition only (x : Z) : Z -> bool := fun c => (c =? x)%Z.
Definition range (lo hi : Z) : Z -> bool := fun c => ((lo <=? c) && (c <=? hi))%Z.
Definition either (p q : Z -> bool) : Z -> bool := fun c => p c || q c.
Definition neither (p : Z -> bool) : Z -> bool := fun c => negb (p c).
Definition one_of (ps : list (Z -> bool)) : Z -> bool :=
  fun c => existsb (fun p => p c) ps.

(** [.] without DOTALL: anything but a line feed. *)
Definition dot : Z -> bool := neither (only 10).

Definition ch (x : string) : Z :=
  match s x with c :: _ => c | [] => 0%Z end.
Arguments ch x%_string.

Definition ascii_letter : Z -> bool := either (range 0x41 0x5A) (range 0x61 0x7A).
Definition ascii_digit : Z -> bool := range 0x30 0x39.
(** [[A-Za-z0-9_]] *)
Definition ident_char : Z -> bool :=
  one_of [range 0x41 0x5A; range 0x61 0x7A; ascii_digit; only 0x5F].
(** [[一-鿿]] *)
Definition han : Z -> bool := range 0x4E00 0x9FFF.
(** [[A-Za-z一-鿿]] *)
Definition letter_or_han : Z -> bool := either ascii_letter han.

(** The section sign that introduces a Minecraft formatting code. *)
Definition sect : Z := 0xA7.

(** A literal string, matched exactly. *)
Definition lit (x : string) : re := cat (map (fun c => Chr (only c)) (s x)).
Arguments lit x%_string.

Definition enum_range (lo hi : Z) : list Z :=
  map (fun i => (lo + Z.of_nat i)%Z) (seq 0 (Z.to_nat (hi - lo + 1))).

Section IgnoreCase.
Context {U : UnicodeData}.

(** One pattern character under [re.IGNORECASE]: [re] compares a
    character without case exactly, a cased one through the case tables. *)
Definition is_i (x : Z) : Z -> bool :=
  if ascii_letter x then icase x else only x.

(** A range of a class under [re.IGNORECASE]. *)
Definition range_i (lo hi : Z) : Z -> bool :=
  fun c => existsb (fun x => icase x c) (enum_range lo hi).

(** A literal string under [re.IGNORECASE]. *)
Definition lit_i (x : string) : re := cat (map (fun c => Chr (is_i c)) (s x)).

End IgnoreCase.
Arguments lit_i {U} x%_string.

(** ** [Language] and [LanguageDetector] *)

Inductive Language : Set :=
| UNKNOWN | ENGLISH | CHINESE | JAPANESE | KOREAN
| FRENCH | GERMAN | SPANISH | RUSSIAN.

#[global] Instance Language_eq_dec : EqDecision Language.
Proof. solve_decision. Defined.

(** [Language.value] *)
Definition value (l : Language) : text :=
  match l with
  | UNKNOWN => s "unknown"
  | ENGLISH => s "en"
  | CHINESE => s "zh"
  | JAPANESE => s "ja"
  | KOREAN => s "ko"
  | FRENCH => s "fr"
  | GERMAN => s "de"
  | SPANISH => s "es"
  | RUSSIAN => s "ru"
  end.

(** [a > b] on scores. The source adds [int] counts and a count times
    [0.5]; such sums are exact in floating point and are kept as
    rationals here. *)
Definition Qgt_bool (a b : Q) : bool := negb (Qle_bool a b).

Definition Qnat (n : nat) : Q := inject_Z (Z.of_nat n).

(** [max(items, key=lambda x: x[1])]: the first item of the largest key. *)
Fixpoint max_from {A : Type} (best : A * Q) (l : list (A * Q)) : A * Q :=
  match l with
  | [] => best
  | x :: l' => if Qgt_bool (snd x) (snd best) then max_from x l' else max_from best l'
  end.

Definition py_max {A : Type} (l : list (A * Q)) : option (A * Q) :=
  match l with
  | [] => None
  | x :: l' => Some (max_from x l')
  end.

Section LanguageDetector.
Context {U : UnicodeData}.

Definition english_words : re :=
  cat [Wb;
       Grp 1 (alts [lit_i "the"; lit_i "and"; lit_i "you"; lit_i "that";
                    lit_i "have"; lit_i "for"; lit_i "not"; lit_i "with";
                    lit_i "this"; lit_i "but"]);
       Wb].

Definition english_verbs : re :=
  cat [Wb;
       Grp 1 (alts [lit_i "is"; lit_i "are"; lit_i "was"; lit_i "were";
                    lit_i "be"; lit_i "been"; lit_i "being"]);
       Wb].

(** [self.language_patterns], in the insertion order of the dict. The
    patterns are run with [re.IGNORECASE]; the CJK, kana and Hangul blocks
    hold no cased character, so their ranges are compared exactly. *)
Definition language_patterns : list (Language * list re) :=
  [ (ENGLISH, [ Chr (either (range_i 0x41 0x5A) (range_i 0x61 0x7A));
                english_words;
                english_verbs ]);
    (CHINESE, [ Chr (range 0x4E00 0x9FFF);
                Chr (range 0x3400 0x4DBF);
                Chr (range 0x20000 0x2A6DF) ]);
    (JAPANESE, [ Chr (range 0x3040 0x309F);
                 Chr (range 0x30A0 0x30FF);
                 Chr (range 0x4E00 0x9FFF) ]);
    (KOREAN, [ Chr (range 0xAC00 0xD7AF);
               Chr (range 0x1100 0x11FF);
               Chr (range 0x3130 0x318F) ]);
    (RUSSIAN, [ Chr (range_i 0x0400 0x04FF) ]) ].

(** [_contains_chinese] *)
Definition _contains_chinese (t : text) : bool := found (Chr han) t.

(** The body of the scoring loop of [detect] for one language. *)
Definition score_of (lang : Language) (patterns : list re)
    (t text_lower : text) : Q :=
  let score :=
    fold_left (fun score pattern => score + Qnat (findall_count pattern text_lower))%Q
              patterns 0%Q in
  match lang with
  | ENGLISH => (score + Qnat (findall_count (Chr ascii_letter) t) * (1 # 2))%Q
  | CHINESE => (score + Qnat (findall_count (Chr han) t) * 2)%Q
  | _ => score
  end.

Definition scores (t : text) : list (Language * Q) :=
  map (fun lp => (fst lp, score_of (fst lp) (snd lp) t (str_lower t)))
      language_patterns.

(** [LanguageDetector.detect] *)
Definition detect (t0 : text) : Language :=
  if negb (truthy t0) || negb (truthy (strip t0)) then UNKNOWN
  else
    let t := strip t0 in
    if _contains_chinese t then CHINESE
    else
      let fallback :=
        if found (Chr ascii_letter) t then ENGLISH else UNKNOWN in
      match py_max (scores t) with
      | Some best_lang =>
          if Qgt_bool (snd best_lang) 0%Q then fst best_lang else fallback
      | None => fallback
      end.

(** [lang_map] of [should_translate] *)
Definition lang_map : list (text * Language) :=
  [ (s "zh-CN", CHINESE); (s "en", ENGLISH); (s "ja", JAPANESE);
    (s "ko", KOREAN); (s "fr", FRENCH); (s "de", GERMAN);
    (s "es", SPANISH); (s "ru", RUSSIAN) ].

Fixpoint dict_get {A : Type} (k : text) (d : list (text * A)) : option A :=
  match d with
  | (k', v) :: d' => if text_eqb k k' then Some v else dict_get k d'
  | [] => None
  end.

(** [LanguageDetector.should_translate] *)
Definition should_translate (t : text) (target_lang : text) : bool :=
  let detected := detect t in
  let target :=
    match dict_get target_lang lang_map with
    | Some l => l
    | None => UNKNOWN
    end in
  if bool_decide (detected = target) then false
  else if bool_decide (detected = UNKNOWN) then true
  else if bool_decide (detected = CHINESE) && bool_decide (target = ENGLISH)
          || bool_decide (detected = ENGLISH) && bool_decide (target = CHINESE)
  then true
  else true.

End LanguageDetector.

(** ** [MessageFilter] *)

(** The option snapshot of a [MessageFilter]. *)
Record filter_options := FilterOptions {
  enabled : bool;
  keep_system : bool;
  keep_rewards : bool;
}.

(** A literal given by its code points. *)
Definition lit_points (cs : list Z) : re := cat (map (fun c => Chr (only c)) cs).

Definition sp : re := Chr is_space.
Definition any : re := Chr dot.
Definition not_gt : Z -> bool := neither (only (ch ">")).
Definition not_rbracket : Z -> bool := neither (only (ch "]")).

(** The non-capturing, starred group that opens three of the patterns: any
    number of bracketed prefixes, each followed by optional white space;
    the brackets may be empty. *)
Definition prefixes : re :=
  star (cat [lit "["; star (Chr not_rbracket); lit "]"; star sp]).

(** The same group in [colon_chat], where the brackets are not empty. *)
Definition prefixes1 : re :=
  star (cat [lit "["; plus (Chr not_rbracket); lit "]"; star sp]).

(** [[0-9A-FK-ORa-fk-or]] *)
Definition code_letter : Z -> bool :=
  one_of [ascii_digit; range 0x41 0x46; range 0x4B 0x4F; only 0x52;
          range 0x61 0x66; range 0x6B 0x6F; only 0x72].

Section MessageFilter.
Context {U : UnicodeData}.

Definition digit : re := Chr is_decimal.

(** [(Max|Total|Free)] under [re.IGNORECASE] *)
Definition reserved : re := alts [lit_i "Max"; lit_i "Total"; lit_i "Free"].

Definition memory_stat (label : string) : re :=
  cat [Bol; lit_i label; lit ":"; plus sp; plus digit; star sp;
       lit "("; star any; lit ")"; Eol].

Definition memory_tag (label : string) : re :=
  cat [Bol; lit "<"; lit_i label; lit ">"; plus sp; plus digit; star any].

(** [self._base_filter_patterns]; they are searched with [re.IGNORECASE]. *)
Definition _base_filter_patterns : list re :=
  [ cat [lit_i "<Opening menu>"; star any];
    cat [lit_i "<Loading>"; star any];
    cat [lit_i "Opening menu:"; plus sp; lit_i "class"; plus sp; star any];
    cat [lit_i "Worker done, connecting to "; star any];
    cat [lit_i "Connecting to "; star any];
    cat [lit_i "[LOADING-SCREEN]"; star any];
    lit_i "Updating active cosmetics list...";
    cat [lit_i "GL"; plus digit; plus sp; lit_i "supported"];
    cat [lit_i "Item entity "; plus digit; lit_i " has no item?!"];
    cat [lit_i "-- Start Memory Debug --"; star any];
    cat [lit_i "-- End Memory Debug --"; star any];
    memory_stat "Max";
    memory_stat "Total";
    memory_stat "Free";
    memory_tag "Max";
    memory_tag "Total";
    memory_tag "Free";
    cat [lit_i "Data sync response failed:"; star any];
    cat [lit_i "<Can't ping "; lazy_star any; lit ">"; plus sp; lit_i "Timed out"];
    cat [lit_i "Can't ping "; star any];
    cat [lit_i "<Update Connection State>"; plus sp; plus digit];
    cat [lit_i "<Update Connection Server>"; plus sp; star any];
    cat [lit_i "<Update connection status json2>"; plus sp; star any];
    cat [Bol; star sp; lit_i "Bed Wars"; star sp; Eol];
    cat [Bol; star sp; lit "/"; plus (Chr (neither is_space)); star any];
    cat [Bol;
         between 1 3
           (Chr (neither (one_of [range_i 0x61 0x7A; range_i 0x41 0x5A;
                                  ascii_digit; han])));
         Eol];
    cat [Bol; lit_i "<BLC>"; star any];
    cat [Bol; lit_i "<Opponent>"; star any] ].

(** [self._reward_filter_patterns] *)
Definition _reward_filter_patterns : list re :=
  [ cat [Bol; lit "+"; plus digit; plus sp; lit_i "tokens!"; star sp;
         lit "("; star any; lit ")"; star any];
    cat [Bol; lit "+"; plus digit; plus sp; lit_i "Bed Wars XP"; star sp;
         lit "("; star any; lit ")"; star any];
    cat [Bol; lit_i "Tokens just earned DOUBLED"; star any] ].

(** [self.system_keep_patterns] *)
Definition system_keep_patterns : list re :=
  [ cat [star any; lit_i "joined the game"; star any];
    cat [star any; lit_i "left the game"; star any];
    cat [star any; lit_i "has made the advancement"; star any];
    cat [star any; lit_i "has completed"; star any];
    cat [star any; lit_i "achievement"; star any];
    cat [star any; lit_i "advancement"; star any];
    cat [lit_points [0x73A9; 0x5BB6]; star any;
         lit_points [0x52A0; 0x5165; 0x6E38; 0x620F]];
    cat [lit_points [0x73A9; 0x5BB6]; star any;
         lit_points [0x79BB; 0x5F00; 0x6E38; 0x620F]];
    lit_points [0x5B8C; 0x6210; 0x4E86; 0x8FDB; 0x5EA6];
    lit_points [0x83B7; 0x5F97; 0x4E86; 0x6210; 0x5C31] ]%Z.

(** The four shapes of [self.chat_patterns]: a speaker in angle brackets,
    a line tagged [.../CHAT], a line tagged [CHAT], and a speaker before
    a colon. *)
Definition angle_shape : re :=
  cat [Bol; prefixes; lit "<"; between 1 32 (Chr not_gt); lit ">";
       star sp; plus any; Eol].

Definition thread_chat_shape : re :=
  cat [Bol; lit "["; lazy_star any; lit "]"; star sp;
       lit "["; lazy_star any; lit "/CHAT]:"; star sp; plus any; Eol].

Definition chat_tag_shape : re :=
  cat [Bol; lit "[CHAT]"; star sp; plus any; Eol].

Definition colon_shape : re :=
  cat [Bol; prefixes; between 3 16 (Chr ident_char); star sp; lit ":";
       star sp; plus any; Eol].

(** [self.chat_patterns]; they are searched without flags. *)
Definition chat_patterns : list re :=
  [angle_shape; thread_chat_shape; chat_tag_shape; colon_shape].

(** [self.colon_chat] *)
Definition colon_chat : re :=
  cat [Bol; prefixes1; Grp 1 (between 3 16 (Chr ident_char)); star sp;
       lit ":"; star sp; Grp 2 (plus any); Eol].

(** [_rebuild_patterns]: the drop rules in force. *)
Definition filter_patterns (o : filter_options) : list re :=
  if keep_rewards o then _base_filter_patterns
  else _base_filter_patterns ++ _reward_filter_patterns.

(** [[0-9a-fk-or]] under [re.IGNORECASE] *)
Definition code_letter_i : Z -> bool :=
  one_of [ascii_digit; range_i 0x61 0x66; range_i 0x6B 0x6F; is_i 0x72].

Definition time_of_day : re :=
  cat [times 2 digit; lit ":"; times 2 digit; lit ":"; times 2 digit].

(** [patterns_to_remove] of [clean_message], substituted in this order
    with [re.IGNORECASE]. *)
Definition patterns_to_remove : list re :=
  [ cat [Bol; lit "["; time_of_day; lit "]"; star sp];
    cat [Bol; lit "["; times 4 digit; lit "-"; times 2 digit; lit "-";
         times 2 digit; lit " "; time_of_day; lit "]"; star sp];
    cat [Bol; Chr (only sect); Chr code_letter_i; star sp];
    cat [Bol; Grp 1 (Chr code_letter_i); Ahead (lit "[")];
    cat [lit "["; lazy_star any; lit_i "INFO]:"; star sp];
    cat [lit "["; lazy_star any; lit_i "WARN]:"; star sp];
    cat [lit "["; lazy_star any; lit_i "ERROR]:"; star sp];
    cat [lit_i "[Client thread]:"; star sp];
    cat [lit_i "[Server thread]:"; star sp];
    cat [lit_i "[CHAT]"; star sp] ].

(** [§[0-9A-FK-ORa-fk-or]] *)
Definition color_code : re := cat [Chr (only sect); Chr code_letter].

(** [(?<![A-Za-z0-9_])[0-9A-FK-ORa-fk-or](?=\[)] *)
Definition stray_code_letter : re :=
  cat [NotBehind ident_char; Chr code_letter; Ahead (lit "[")].

(** [MessageFilter.clean_message] *)
Definition clean_message (message : text) : text :=
  let cleaned := fold_left (fun cleaned pat => re_sub pat cleaned)
                           patterns_to_remove message in
  let cleaned := re_sub color_code cleaned in
  let cleaned := remove_char sect cleaned in
  let cleaned := re_sub stray_code_letter cleaned in
  if truthy (strip cleaned) then strip cleaned else strip message.

(** [re.match(r'^(Max|Total|Free)$', name, flags=re.IGNORECASE)] *)
Definition is_reserved (name : text) : bool :=
  match re_match (cat [Bol; Grp 1 reserved; Eol]) name with
  | Some _ => true
  | None => false
  end.

Definition group (n : nat) (st : mstate) : text :=
  match get_cap n (caps st) with Some t => t | None => [] end.

(** [MessageFilter.is_system_message] *)
Definition is_system_message (o : filter_options) (message : text) : bool :=
  if negb (keep_system o) then false
  else existsb (fun kw => found kw message) system_keep_patterns.

(** [MessageFilter.is_player_chat] *)
Definition is_player_chat (cleaned : text) : bool :=
  if negb (truthy cleaned) then false
  else if (match re_match (cat [Bol; lit "<"; Grp 1 reserved; lit ">"; Wb]) cleaned
           with Some _ => true | None => false end)
  then false
  else if existsb (fun pat => found pat cleaned) chat_patterns
  then found (Chr letter_or_han) cleaned
  else
    match re_match colon_chat cleaned with
    | Some mt =>
        let name := strip (group 1 mt) in
        let msg := strip (group 2 mt) in
        if is_reserved name then false
        else truthy msg && found (Chr letter_or_han) msg
    | None => false
    end.

(** [MessageFilter.should_keep] *)
Definition should_keep (o : filter_options) (raw_line : text) : bool :=
  if negb (enabled o) then true
  else
    let line := strip raw_line in
    if negb (truthy line) then false
    else
      let cleaned := clean_message line in
      if existsb (fun pat => found pat line || found pat cleaned)
                 (filter_patterns o)
      then false
      else if is_system_message o cleaned then true
      else if is_player_chat cleaned then true
      else false.

(** The patterns of [extract_player_message], matched without flags. *)
Definition extract_angle : re :=
  cat [Bol; prefixes; lit "<"; Grp 1 (plus (Chr not_gt)); lit ">";
       star sp; Grp 2 (star any); Eol].

Definition extract_thread_chat : re :=
  cat [Bol; lit "["; lazy_star any; lit "]"; star sp;
       lit "["; lazy_star any; lit "/CHAT]:"; star sp;
       lit "<"; Grp 1 (plus (Chr not_gt)); lit ">"; star sp;
       Grp 2 (star any); Eol].

Definition extract_colon : re :=
  cat [Bol; prefixes; Grp 1 (between 3 16 (Chr ident_char)); star sp;
       lit ":"; star sp; Grp 2 (star any); Eol].

Definition extract_patterns : list re :=
  [extract_angle; extract_thread_chat; extract_colon].

(** The loop of [extract_player_message]: the first pattern that matches
    decides. [None] stands for Python's [None] speaker. *)
Fixpoint extract_with (patterns : list re) (cleaned : text)
  : option text * text :=
  match patterns with
  | [] => (None, cleaned)
  | pat :: rest =>
      match re_match pat cleaned with
      | Some mt =>
          let player := strip (group 1 mt) in
          let msg := strip (group 2 mt) in
          if is_reserved player then (None, cleaned)
          else (Some player, msg)
      | None => extract_with rest cleaned
      end
  end.

(** [MessageFilter.extract_player_message] *)
Definition extract_player_message (message : text) : option text * text :=
  extract_with extract_patterns (clean_message message).


End MessageFilter.

(** The chat line of a speaker and a message: the f-string that puts the
    speaker in angle brackets, then a space and the message. *)
Definition chat_line (speaker message : text) : text :=
  s "<" ++ speaker ++ s "> " ++ message.

(** ** A character database for worked examples

    The tables restricted to ASCII and the CJK Unified Ideographs block:
    [str.lower] and case-insensitive comparison act on the ASCII letters
    (with the four other code points that Python's [re] documents as
    matching ASCII letters under IGNORECASE: U+0130 and U+0131 for i,
    U+017F for s, U+212A for k), the decimal digits are 0-9 and the word
    characters are the ASCII ones and the ideographs. It agrees with the
    Python runtime on every text made of ASCII characters and ideographs,
    which is what the examples below use. *)

Definition ascii_lower (c : Z) : Z :=
  if range 0x41 0x5A c then (c + 32)%Z else c.

Definition ascii_fold (c : Z) : Z :=
  if range 0x41 0x5A c then (c + 32)%Z
  else if (c =? 0x130)%Z || (c =? 0x131)%Z then 0x69%Z
  else if (c =? 0x17F)%Z then 0x73%Z
  else if (c =? 0x212A)%Z then 0x6B%Z
  else c.

Definition ascii_ucd : UnicodeData := {|
  str_lower := map ascii_lower;
  is_word := either ident_char han;
  is_decimal := ascii_digit;
  icase := fun x c => (ascii_fold c =? ascii_fold x)%Z;
|}.

(** ** Substrings *)

Fixpoint starts_with (p t : text) : bool :=
  match p, t with
  | [], _ => true
  | a :: p', b :: t' => (a =? b)%Z && starts_with p' t'
  | _ :: _, [] => false
  end.

(** [p in t] *)
Fixpoint contains (p t : text) : bool :=
  starts_with p t || match t with [] => false | _ :: t' => contains p t' end.

Fixpoint delete_from (fuel : nat) (old t : text) : text :=
  match fuel with
  | O => t
  | S fuel' =>
      match t with
      | [] => []
      | c :: t' =>
          if truthy old && starts_with old t
          then delete_from fuel' old (skipn (length old) t)
          else c :: delete_from fuel' old t'
      end
  end.

(** [t.replace(old, '')] *)
Definition delete_all (old t : text) : text := delete_from (length t) old t.

(** ** [EnhancedMinecraftLogMonitor] *)

(** What one turn of the loop of [_monitor_loop] sees of the file:
    [os.path.getsize] ([None] when it raises [OSError]), the position that
    [f.seek(0, os.SEEK_END); f.tell()] returns, and the text decoded from
    the bytes that [f.read] returns. *)
Record poll_obs := PollObs {
  getsize : option Z;
  end_of_file : Z;
  new_content : text;
}.

(** One turn of the [while self.running] loop: the new [last_position] and
    the content handed to [_process_content], if any. *)
Definition poll (last_position : Z) (o : poll_obs) : Z * option text :=
  match getsize o with
  | None => (last_position, None)
  | Some current_size =>
      if (current_size <? last_position)%Z then (end_of_file o, None)
      else if (current_size >? last_position)%Z then
        (current_size,
         if truthy (new_content o) && truthy (strip (new_content o))
         then Some (new_content o) else None)
      else (last_position, None)
  end.

(** The loop over a series of observations, from the position taken when
    the file is opened. *)
Definition monitor_loop (opened_at : Z) (obs : list poll_obs) : Z :=
  fold_left (fun pos o => fst (poll pos o)) obs opened_at.

Section Pipeline.
Context {U : UnicodeData}.

(** The body of the loop of [_process_content] for a line that passed the
    duplicate check: the arguments of the callback, that is the message,
    its [msg_type] and [keep_for_translation]. *)
Definition process_line (o : filter_options) (line : text)
  : text * text * bool :=
  let keep_for_translation := should_keep o line in
  let cleaned_message := clean_message line in
  if is_system_message o cleaned_message
  then (cleaned_message, s "system", keep_for_translation)
  else
    match extract_player_message cleaned_message with
    | (Some player, message_content) =>
        if truthy player
        then (s "<" ++ player ++ s "> " ++ message_content, s "chat",
              keep_for_translation)
        else (cleaned_message, s "info", keep_for_translation)
    | (None, _) => (cleaned_message, s "info", keep_for_translation)
    end.

Definition msg_type_of (o : filter_options) (line : text) : text :=
  snd (fst (process_line o line)).

(** *** The Qt dispatcher: [MainWindow.on_log] *)

Record payload := Payload {
  p_text : text;
  p_player : option text;
  p_raw : text;
}.

Record main_window := MainWindow {
  hide_all_messages : bool;
  show_all_logs : bool;
  no_translate_names : bool;
  cb_auto : bool;                     (* self.cb_auto.isChecked() *)
  pending_ui : list (text * text);    (* queue.Queue() *)
  auto_q : list payload;              (* queue.Queue(maxsize=8) *)
}.

Definition auto_q_maxsize : nat := 8.

(** [Queue.put_nowait] on a queue of a given [maxsize]; [None] stands for
    the exception [queue.Full]. *)
Definition put_nowait {A : Type} (maxsize : nat) (q : list A) (x : A)
  : option (list A) :=
  if maxsize <=? length q then None else Some (q ++ [x]).

Definition with_queues (w : main_window) (ui : list (text * text))
    (q : list payload) : main_window :=
  MainWindow (hide_all_messages w) (show_all_logs w) (no_translate_names w)
             (cb_auto w) ui q.

Definition is_chat_type (msg_type : text) : bool :=
  text_eqb (str_lower msg_type) (s "chat").

Definition stamp (ts line : text) : text := s "[" ++ ts ++ s "] " ++ line.

(** The payload that [on_log] builds: the whole message, or the content
    alone when the speaker's name is not to be translated. *)
Definition log_payload (w : main_window) (message msg_type : text) : payload :=
  let whole := Payload message None message in
  if is_chat_type msg_type && no_translate_names w then
    match extract_player_message message with
    | (Some player, content) =>
        if truthy player && truthy content
        then Payload content (Some player) message
        else whole
    | (None, _) => whole
    end
  else whole.

(** [MainWindow.on_log]; [ts] is the value of [time.strftime]. *)
Definition on_log (w : main_window) (ts message msg_type : text)
    (raw_line : option text) (keep_for_translation : bool) : main_window :=
  let is_chat := is_chat_type msg_type in
  let ui :=
    if negb (hide_all_messages w) then
      match (if show_all_logs w then raw_line else None) with
      | Some raw =>
          if truthy raw then pending_ui w ++ [(s "monitor", stamp ts raw)]
          else if keep_for_translation && is_chat
          then pending_ui w ++ [(s "monitor", stamp ts message)]
          else pending_ui w
      | None =>
          if keep_for_translation && is_chat
          then pending_ui w ++ [(s "monitor", stamp ts message)]
          else pending_ui w
      end
    else pending_ui w in
  if keep_for_translation && cb_auto w then
    match put_nowait auto_q_maxsize (auto_q w) (log_payload w message msg_type) with
    | Some q' => with_queues w ui q'
    | None => with_queues w ui (auto_q w)     (* except queue.Full: pass *)
    end
  else with_queues w ui (auto_q w).

(** A line event as the monitor hands it to the callback. *)
Record log_event := LogEvent {
  ev_ts : text;
  ev_message : text;
  ev_msg_type : text;
  ev_raw_line : option text;
  ev_keep : bool;
}.

Definition on_log_event (w : main_window) (e : log_event) : main_window :=
  on_log w (ev_ts e) (ev_message e) (ev_msg_type e) (ev_raw_line e) (ev_keep e).

(** The monitor hands a series of lines to [on_log] while the worker takes
    nothing from the queue. *)
Definition feed (w : main_window) (events : list log_event) : main_window :=
  fold_left on_log_event events w.


(** *** The Tk dispatcher: [_auto_translate_message] *)

Record dispatch_item := DispatchItem {
  d_text : text;
  d_detected_lang : Language;
  d_target_lang : text;
  d_engine : text;
}.

Record translator := Translator {
  lang_var : text;                    (* self.lang_var.get() *)
  detect_var : bool;                  (* self.detect_var.get() *)
  current_engine : text;
  _auto_queue_limit : nat;
  _auto_last_msg : option text;
  _auto_last_ts : Q;
  _auto_translate_queue : list dispatch_item;   (* queue.Queue() *)
  _auto_pending : list text;
}.

Definition debounced (tr : translator) (message : text) (now : Q)
    (q : list dispatch_item) (pending : list text) : translator :=
  Translator (lang_var tr) (detect_var tr) (current_engine tr)
             (_auto_queue_limit tr) (Some message) now q pending.

Definition same_language (detected_lang : Language) (target_lang : text) : bool :=
  let target_lang_simple :=
    if contains (s "-CN") target_lang
    then delete_all (s "-CN") target_lang else target_lang in
  text_eqb (value detected_lang) target_lang_simple
  || bool_decide (detected_lang = CHINESE) && text_eqb target_lang_simple (s "zh").

(** [_auto_translate_message]; [now] is the value of [time.time()]. *)
Definition _auto_translate_message (tr : translator)
    (message msg_type : text) (now : Q) : translator :=
  let detected_lang := detect message in
  let target_lang := lang_var tr in
  if detect_var tr && same_language detected_lang target_lang
     && negb (text_eqb msg_type (s "chat"))
  then tr
  else if (match _auto_last_msg tr with
           | Some last => text_eqb message last
           | None => false
           end) && Qgt_bool 1 (now - _auto_last_ts tr)
  then tr
  else if _auto_queue_limit tr <=? length (_auto_translate_queue tr)
  then debounced tr message now (_auto_translate_queue tr) (_auto_pending tr)
  else debounced tr message now
         (_auto_translate_queue tr
          ++ [DispatchItem message detected_lang target_lang (current_engine tr)])
         (if existsb (text_eqb message) (_auto_pending tr)
          then _auto_pending tr else _auto_pending tr ++ [message]).

(** A series of calls of [_auto_translate_message], each with its message,
    its [msg_type] and its time, while the worker takes nothing from the
    queue. *)
Definition auto_feed (tr : translator) (calls : list (text * text * Q))
  : translator :=
  fold_left (fun tr c => _auto_translate_message tr (fst (fst c)) (snd (fst c)) (snd c))
            calls tr.

(** The state that [__init__] sets up. *)
Definition new_translator (language : text) (detect : bool) : translator :=
  Translator language detect (s "baidu") 5 None 0 [] [].

End Pipeline.

(** ** [MainWindow._translate_core] *)

Section TranslateCore.
Context {U : UnicodeData}.

(** Modelled from the spec: the class [TranslationCache] of [core/cache.py]
    is imported by [ui/main_window.py] but is not among the source files.
    The spec describes it as a mapping from (normalized text, engine id,
    target language) to translated text, without expiry. The
    normalisation of the text is not described and is a parameter. *)
Variable normalize : text -> text.

Definition cache_get (c : gmap (text * text * text) text)
    (t engine target : text) : option text :=
  c !! (normalize t, engine, target).

Definition cache_set (c : gmap (text * text * text) text)
    (t engine target translated : text) : gmap (text * text * text) text :=
  <[(normalize t, engine, target) := translated]> c.

(** A call of [_translate_with_engine], which reaches the translation
    provider. *)
Record engine_call := EngineCall {
  call_engine : text;
  call_text : text;
  call_from : text;
  call_to : text;
}.

(** The answer of the provider: [(translated, error)], each possibly
    [None]. *)
Definition engine_reply : Type := option text * option text.

Record core_state := CoreState {
  cache : gmap (text * text * text) text;
  engine_calls : list engine_call;       (* the calls made so far *)
}.

Record core_ui := CoreUi {
  lang_currentText : text;
  engine_currentText : text;
  cb_detect : bool;
}.

Record core_result := CoreResult {
  translated : option text;
  error : option text;
  cache_hit : bool;
  from_lang : text;
}.

Definition truthy_opt (x : option text) : bool :=
  match x with Some t => truthy t | None => false end.

(** [_translate_core(text, smart)]. The provider is an arbitrary
    function [provider] from the call to its answer. *)
Definition _translate_core (provider : engine_call -> engine_reply)
    (ui : core_ui) (st : core_state) (t : text) (smart : bool)
  : core_result * core_state :=
  let target := lang_currentText ui in
  let engine := engine_currentText ui in
  let hit := cache_get (cache st) t engine target in
  if truthy_opt hit then (CoreResult hit None true (s "auto"), st)
  else
    let detected := if smart && cb_detect ui then detect t else UNKNOWN in
    let from_lang :=
      if smart && negb (bool_decide (detected = UNKNOWN))
      then value detected else s "auto" in
    let simple_target := delete_all (s "-CN") target in
    if smart && negb (bool_decide (detected = UNKNOWN))
       && (text_eqb (value detected) simple_target
           || bool_decide (detected = CHINESE) && text_eqb simple_target (s "zh"))
    then (CoreResult (Some t) None false from_lang, st)
    else
      let call := EngineCall engine t from_lang target in
      let reply := provider call in
      let calls := engine_calls st ++ [call] in
      if truthy_opt (fst reply) && negb (truthy_opt (snd reply))
      then (CoreResult (fst reply) (snd reply) false from_lang,
            CoreState (cache_set (cache st) t engine target
                         (default [] (fst reply))) calls)
      else (CoreResult (fst reply) (snd reply) false from_lang,
            CoreState (cache st) calls).

End TranslateCore.

(** ** [_process_content] *)

(** [t.split(sep)] for a one-character separator. *)
Fixpoint split_on (sep : Z) (t : text) : list text :=
  match t with
  | [] => [[]]
  | c :: t' =>
      if (c =? sep)%Z then [] :: split_on sep t'
      else match split_on sep t' with
           | l :: ls => (c :: l) :: ls
           | [] => [[c]]
           end
  end.

(** The arguments of one call of [self.callback]. *)
Record callback_args := CallbackArgs {
  cb_message : text;
  cb_msg_type : text;
  cb_raw_line : text;
  cb_keep : bool;
}.

Section ProcessContent.
Context {U : UnicodeData}.

(** [hash] on strings, a function of the Python runtime. *)
Variable py_hash : text -> Z.

(** The bound on [self.last_messages]. *)
Definition last_messages_limit : nat := 100.

(** The body of the loop of [_process_content] on one line: the new
    [last_messages] and the calls of the callback so far. *)
Definition process_content_line (o : filter_options)
    (acc : list Z * list callback_args) (line : text)
  : list Z * list callback_args :=
  if negb (truthy (strip line)) then acc
  else
    let line_hash := py_hash (strip line) in
    if existsb (Z.eqb line_hash) (fst acc) then acc
    else
      let appended := fst acc ++ [line_hash] in
      let last_messages :=
        if last_messages_limit <? length appended then tl appended else appended in
      let '(message, msg_type, keep) := process_line o line in
      (last_messages, snd acc ++ [CallbackArgs message msg_type line keep]).

(** [_process_content] *)
Definition _process_content (o : filter_options) (last_messages : list Z)
    (content : text) : list Z * list callback_args :=
  fold_left (process_content_line o) (split_on 10 (strip content))
            (last_messages, []).

End ProcessContent.

(** ** The translators before the network *)

(** [BaiduTranslator.translate] and [GoogleTranslator.translate] decide
    without the network in some cases and send a request in the others;
    what the provider answers is outside the program. *)
Inductive outcome : Type :=
| Reply (translated_text : option text) (error_msg : option text)
| Request (q from_lang to_lang : text).

Record BaiduTranslator := Baidu {
  app_id : text;
  secret_key : text;
}.

(** The two error messages that are returned before any request. *)
Definition msg_no_key : text :=
  [0x8BF7; 0x5148; 0x914D; 0x7F6E; 0x767E; 0x5EA6; 0x7FFB; 0x8BD1;
   0x41; 0x50; 0x49; 0x5BC6; 0x94A5]%Z.
Definition msg_empty : text := [0x6587; 0x672C; 0x4E3A; 0x7A7A]%Z.

Section Translators.
Context {U : UnicodeData}.

(** The source language that is sent when the caller asks for [auto]. *)
Definition resolve_from (t from_lang : text) : text :=
  if text_eqb from_lang (s "auto") then
    if bool_decide (detect t = UNKNOWN) then from_lang else value (detect t)
  else from_lang.

(** [BaiduTranslator.translate], up to the request. *)
Definition baidu_translate (b : BaiduTranslator) (t from_lang to_lang : text)
  : outcome :=
  if negb (should_translate t to_lang) then Reply (Some t) None
  else if negb (truthy (app_id b)) || negb (truthy (secret_key b))
  then Reply None (Some msg_no_key)
  else if negb (truthy t) || negb (truthy (strip t))
  then Reply None (Some msg_empty)
  else Request t (resolve_from t from_lang) to_lang.

(** [GoogleTranslator.translate], up to the request. *)
Definition google_translate (t from_lang to_lang : text) : outcome :=
  if negb (should_translate t to_lang) then Reply (Some t) None
  else if negb (truthy t) || negb (truthy (strip t))
  then Reply None (Some msg_empty)
  else Request t (resolve_from t from_lang) to_lang.

(** [mapped] of [MainWindow._translate_with_engine] *)
Definition mapped : list (text * text) :=
  [ (s "zh-CN", s "zh-CN"); (s "en", s "en"); (s "ja", s "ja");
    (s "ko", s "ko"); (s "fr", s "fr"); (s "de", s "de");
    (s "es", s "es"); (s "ru", s "ru") ].

(** [mapped.get(to_lang, "zh-CN")] *)
Definition google_target (to_lang : text) : text :=
  match dict_get to_lang mapped with
  | Some l => l
  | None => s "zh-CN"
  end.

(** [MainWindow._translate_with_engine]; [baidu] is [self.baidu], which is
    [None] when no key is configured. *)
Definition _translate_with_engine (engine : text) (baidu : option BaiduTranslator)
    (t from_lang to_lang : text) : outcome :=
  match (if text_eqb engine (s "baidu") then baidu else None) with
  | Some b => baidu_translate b t from_lang (s "zh")
  | None => google_translate t from_lang (google_target to_lang)
  end.

(** What [_do_smart_translate] of the Tk window does with a text: it shows
    it unchanged, or asks one of the two translators. *)
Inductive smart_action : Type :=
| ShowUnchanged
| AskBaidu (from_lang to_lang : text)
| AskGoogle (from_lang to_lang : text).

(** [lang_map.get(target_lang, 'zh-CN')] of [_do_smart_translate] *)
Definition smart_google_lang (target_lang : text) : text :=
  match dict_get target_lang
          [ (s "zh-CN", s "zh-CN"); (s "en", s "en"); (s "ja", s "ja");
            (s "ko", s "ko") ] with
  | Some l => l
  | None => s "zh-CN"
  end.

(** [_do_smart_translate], up to the call of the translator;
    [has_baidu] tells whether [self.baidu_translator] is set. *)
Definition _do_smart_translate (has_baidu : bool) (engine : text)
    (detected_lang : Language) (target_lang : text) : smart_action :=
  if same_language detected_lang target_lang then ShowUnchanged
  else
    let from_lang :=
      if bool_decide (detected_lang = UNKNOWN) then s "auto"
      else value detected_lang in
    if text_eqb engine (s "baidu") && has_baidu
    then AskBaidu from_lang (s "zh")
    else AskGoogle from_lang (smart_google_lang target_lang).

End Translators.

(** ** Statistics, history and [MainWindow._translate_worker] *)

(** An entry of [self.history]. *)
Record history_item := HistoryItem {
  h_time : text;
  h_engine : text;
  h_from : text;
  h_to : text;
  h_original : text;
  h_translated : option text;
}.

Definition history_limit : nat := 200.

(** [_add_history]: the new entry goes first and the list is cut to 200. *)
Definition _add_history (history : list history_item) (item : history_item)
  : list history_item :=
  firstn history_limit (item :: history).

(** What the worker puts on [self.pending_ui]. *)
Inductive ui_event : Type :=
| UiStatus (msg : text)
| UiResult (shown : option text)
| UiOverlay (original : text) (translated_text : option text)
| UiLoadingStop.

Section Worker.
Context {U : UnicodeData}.

(** Durations are floating-point numbers; their type and their addition
    are parameters. *)
Variable F : Type.
Variable fadd : F -> F -> F.
Variable fzero : F.

(** One dict of counters, of [self._stats] or of [self._stats_by_engine]. *)
Record stats := Stats {
  s_total : nat;
  s_success : nat;
  s_fail : nat;
  s_cache_hit : nat;
  s_total_ms : F;
}.

Definition no_stats : stats := Stats 0 0 0 0 fzero.

(** The updates that [_stats_record] makes to one dict of counters. *)
Definition count_attempt (st : stats) (success : bool) (duration_ms : F)
    (hit : bool) : stats :=
  Stats (S (s_total st))
        (if success then S (s_success st) else s_success st)
        (if success then s_fail st else S (s_fail st))
        (if hit then S (s_cache_hit st) else s_cache_hit st)
        (fadd (s_total_ms st) duration_ms).

(** [MainWindow._stats_record] on the pair of [self._stats] and
    [self._stats_by_engine]. *)
Definition _stats_record (all : stats * gmap text stats) (success : bool)
    (duration_ms : F) (hit : bool) (engine : text)
  : stats * gmap text stats :=
  (count_attempt (fst all) success duration_ms hit,
   <[engine := count_attempt (default no_stats (snd all !! engine))
                 success duration_ms hit]> (snd all)).

(** The texts of the user interface and the formatting of an error, from
    the tables of [_texts]. *)
Variable status_insufficient : text.
Variable status_done : text.
Variable format_failed : text -> text.

Variable normalize : text -> text.

Record worker_state := WorkerState {
  w_core : core_state;
  w_stats : stats * gmap text stats;
  w_history : list history_item;
  w_pending_ui : list ui_event;
  w_consumed : nat;         (* the calls of consume(0.5) *)
}.

(** The text that an f-string shows for a value that may be [None]. *)
Definition shown (x : option text) : text :=
  match x with Some t => t | None => s "None" end.

(** [MainWindow._translate_worker]. [entitled] is the answer of
    [can_consume(0.5)], [duration_ms] the time measured around
    [_translate_core] and [now] the time written into the history. *)
Definition _translate_worker (provider : engine_call -> engine_reply)
    (ui : core_ui) (w : worker_state) (entitled : bool) (duration_ms : F)
    (now : text) (t : text) (smart from_monitor : bool)
    (raw player : option text) : worker_state :=
  let finally (w' : worker_state) : worker_state :=
    if from_monitor then w'
    else WorkerState (w_core w') (w_stats w') (w_history w')
                     (w_pending_ui w' ++ [UiLoadingStop]) (w_consumed w') in
  if from_monitor && negb entitled then
    WorkerState (w_core w) (w_stats w) (w_history w)
                (w_pending_ui w ++ [UiStatus status_insufficient]) (w_consumed w)
  else
    let (r, core') := _translate_core normalize provider ui (w_core w) t smart in
    let recorded :=
      _stats_record (w_stats w)
        (match error r with None => true | Some _ => false end)
        duration_ms (cache_hit r) (engine_currentText ui) in
    let display_original :=
      match raw with
      | Some x => if truthy x then x else t
      | None => t
      end in
    let display_translated :=
      match player with
      | Some p =>
          if truthy p
          then Some (s "<" ++ p ++ s "> " ++ shown (translated r))
          else translated r
      | None => translated r
      end in
    let completed :=
      WorkerState core' recorded
        (_add_history (w_history w)
           (HistoryItem now (engine_currentText ui) (from_lang r)
              (lang_currentText ui) t (translated r)))
        (w_pending_ui w
         ++ [if from_monitor
             then UiOverlay display_original display_translated
             else UiResult (translated r);
             UiStatus status_done])
        (if from_monitor then S (w_consumed w) else w_consumed w) in
    match error r with
    | Some e =>
        if truthy e then
          finally (WorkerState core' recorded (w_history w)
                     (w_pending_ui w ++ [UiStatus (format_failed e);
                                         UiResult (Some (format_failed e))])
                     (w_consumed w))
        else finally completed
    | None => finally completed
    end.

End Worker.

Arguments Stats {F}.
Arguments s_total {F}.
Arguments s_success {F}.
Arguments s_fail {F}.
Arguments s_cache_hit {F}.
Arguments s_total_ms {F}.
Arguments no_stats {F}.
Arguments count_attempt {F}.
Arguments _stats_record {F}.
Arguments WorkerState {F}.
Arguments w_core {F}.
Arguments w_stats {F}.
Arguments w_history {F}.
Arguments w_pending_ui {F}.
Arguments w_consumed {F}.
Arguments _translate_worker {U F}.

(** ** Notions used in the statements *)

(** [reaches st st']: [st'] is a position further in the same text. *)
Definition reaches (st st' : mstate) : Prop :=
  exists pre, after st = pre ++ after st'.

(** A matcher that succeeds only by calling its continuation further in
    the text. *)
Definition follows (body : mstate -> (mstate -> option mstate) -> option mstate)
  : Prop :=
  forall st k res, body st k = Some res ->
                   exists st', reaches st st' /\ k st' = Some res.

(** A loop body that reads exactly one character of a class. *)
Definition one_char (p : Z -> bool)
    (body : mstate -> (mstate -> option mstate) -> option mstate) : Prop :=
  forall st k,
    body st k = match after st with
                | c :: rest => if p c then k (advance c rest st) else None
                | [] => None
                end.

(** A character that every match of the pattern has to read, by consuming
    it or by looking ahead. *)
Fixpoint needs (c : Z) (r : re) : Prop :=
  match r with
  | Chr p => forall x, p x = true -> x = c
  | Seq a b => needs c a \/ needs c b
  | Alt a b => needs c a /\ needs c b
  | Rep _ lo _ a => 0 < lo /\ needs c a
  | Grp _ a => needs c a
  | Ahead a => needs c a
  | _ => False
  end.

(** No two messages in a row are the same, starting after [prev]. *)
Fixpoint no_repeat (prev : option text) (calls : list (text * text * Q)) : Prop :=
  match calls with
  | [] => True
  | c :: calls' =>
      prev <> Some (fst (fst c)) /\ no_repeat (Some (fst (fst c))) calls'
  end.

(** The inputs of the worked examples. *)
Definition example_window : main_window :=
  MainWindow false false true true [] [].

Definition example_event : log_event :=
  LogEvent (s "12:00:00") (s "<Steve> hi") (s "chat") None true.

Definition example_ui : core_ui := CoreUi (s "fr") (s "google") true.

Definition example_provider : engine_call -> engine_reply :=
  fun _ => (Some (s "bonjour"), None).

Definition example_outage : engine_call -> engine_reply :=
  fun _ => (None, Some (s "timeout")).

(** [within txt st]: the text ahead and the captured groups of [st] are
    made of characters of [txt]. *)
Definition within (txt : list Z) (st : mstate) : Prop :=
  incl (after st) txt /\ Forall (fun nt => incl (snd nt) txt) (caps st).

Definition keeps (txt : list Z)
    (body : mstate -> (mstate -> option mstate) -> option mstate) : Prop :=
  forall st k res, within txt st -> body st k = Some res ->
                   exists st', within txt st' /\ k st' = Some res.

(** The rule of [_base_filter_patterns] for slash commands. *)
Definition slash_rule : re :=
  cat [Bol; star sp; lit "/"; plus (Chr (neither is_space)); star any].

Section StatsNotions.
Variable F : Type.
Variable fadd : F -> F -> F.
Variable fzero : F.

(** The counters of a dict agree with each other. *)
Definition coherent (st : stats F) : Prop :=
  s_success st + s_fail st = s_total st
  /\ s_cache_hit st <= s_total st.

(** An attempt as [_stats_record] receives it. *)
Definition attempt : Type := bool * F * bool * text.

Definition record_all (all : stats F * gmap text (stats F)) (attempts : list attempt)
  : stats F * gmap text (stats F) :=
  fold_left (fun all a =>
               _stats_record fadd fzero all (fst (fst (fst a))) (snd (fst (fst a)))
                 (snd (fst a)) (snd a))
            attempts all.

Definition of_engine (all : stats F * gmap text (stats F)) (engine : text) : stats F :=
  default (no_stats fzero) (snd all !! engine).

Definition attempts_of (engine : text) (attempts : list attempt) : nat :=
  length (List.filter (fun a => text_eqb (snd a) engine) attempts).

End StatsNotions.

Arguments coherent {F}.
Arguments attempt F : clear implicits.
Arguments record_all {F}.
Arguments of_engine {F}.
Arguments attempts_of {F}.

(** The inputs of further worked examples. *)
Definition example_translator : translator :=
  Translator (s "zh-CN") true (s "baidu") 5 None 0 [] [].

Definition example_hash (t : text) : Z := fold_left (fun h c => (31 * h + c)%Z) t 0%Z.

(** * Properties *)

(** ** White space *)

Lemma lstrip_idem (t : text) : lstrip (lstrip t) = lstrip t.
Proof.
  induction t as [|c t IH]; simpl; [reflexivity|].
  destruct (is_space c) eqn:E; [exact IH|].
  simpl. now rewrite E.
Qed.

Lemma rstrip_idem (t : text) : rstrip (rstrip t) = rstrip t.
Proof.
  unfold rstrip. now rewrite rev_involutive, lstrip_idem.
Qed.

Lemma lstrip_snoc (l : text) (c : Z) :
  is_space c = false -> lstrip (l ++ [c]) = lstrip l ++ [c].
Proof.
  intros Hc. induction l as [|a l IH]; simpl.
  - now rewrite Hc.
  - destruct (is_space a); [exact IH | reflexivity].
Qed.

Lemma rstrip_cons (c : Z) (t : text) :
  is_space c = false -> rstrip (c :: t) = c :: rstrip t.
Proof.
  intros Hc. unfold rstrip. simpl rev.
  rewrite lstrip_snoc by exact Hc.
  now rewrite rev_app_distr.
Qed.

Lemma lstrip_rstrip_lstrip (t : text) :
  lstrip (rstrip (lstrip t)) = rstrip (lstrip t).
Proof.
  induction t as [|c t IH]; [reflexivity|].
  simpl lstrip at 2 3. destruct (is_space c) eqn:E; [exact IH|].
  rewrite rstrip_cons by exact E. simpl. now rewrite E.
Qed.

Lemma strip_idem (t : text) : strip (strip t) = strip t.
Proof.
  unfold strip. now rewrite lstrip_rstrip_lstrip, rstrip_idem.
Qed.

Lemma lstrip_In (c : Z) (t : text) :
  is_space c = false -> In c t -> In c (lstrip t).
Proof.
  intros Hc. induction t as [|a t IH]; simpl; [tauto|].
  intros [->|Hin].
  - rewrite Hc. now left.
  - destruct (is_space a); [auto | now right].
Qed.

Lemma strip_In (c : Z) (t : text) :
  is_space c = false -> In c t -> In c (strip t).
Proof.
  intros Hc Hin. unfold strip, rstrip.
  apply in_rev. rewrite rev_involutive.
  apply lstrip_In; [exact Hc|].
  apply in_rev. rewrite rev_involutive.
  now apply lstrip_In.
Qed.






(** ** The matcher *)

Lemma reaches_refl (st : mstate) : reaches st st.
Proof. now exists []. Qed.

Lemma reaches_trans (a b c : mstate) :
  reaches a b -> reaches b c -> reaches a c.
Proof.
  intros [p Hp] [q Hq]. exists (p ++ q).
  now rewrite Hp, Hq, app_assoc.
Qed.

Lemma reaches_In (st st' : mstate) (c : Z) :
  reaches st st' -> In c (after st') -> In c (after st).
Proof.
  intros [p Hp] Hin. rewrite Hp. apply in_or_app. now right.
Qed.

Section MatcherFacts.
Context {U : UnicodeData}.

Lemma rep_loop_inv body greedy lo hi k fuel :
  follows body ->
  forall i st res,
    rep_loop body greedy lo hi k fuel i st = Some res ->
    exists st', reaches st st' /\ k st' = Some res.
Proof.
  intros Hb. induction fuel as [|fuel IH]; intros i st res; simpl; [discriminate|].
  assert (Hagain :
    (if below i hi
     then body st (fun st' => if shorter st' st
                              then rep_loop body greedy lo hi k fuel (S i) st'
                              else None)
     else None) = Some res ->
    exists st', reaches st st' /\ k st' = Some res).
  { destruct (below i hi); [|discriminate].
    intros H. apply Hb in H. destruct H as (st1 & Hr & H).
    destruct (shorter st1 st); [|discriminate].
    apply IH in H. destruct H as (st2 & Hr2 & H).
    exists st2. split; [eapply reaches_trans; eassumption | exact H]. }
  assert (Hstop :
    (if lo <=? i then k st else None) = Some res ->
    exists st', reaches st st' /\ k st' = Some res).
  { destruct (lo <=? i); [|discriminate].
    intros H. exists st. split; [apply reaches_refl | exact H]. }
  destruct greedy.
  - destruct (if below i hi then _ else None) eqn:E.
    + intros [= ->]. now apply Hagain.
    + exact Hstop.
  - destruct (if lo <=? i then _ else None) eqn:E.
    + intros [= ->]. now apply Hstop.
    + exact Hagain.
Qed.

(** A successful match has called its continuation at a later position
    of the same text. *)
Lemma m_inv (r : re) : follows (m r).
Proof.
  induction r as [|p|a IHa b IHb|a IHa b IHb|g lo hi a IHa|n a IHa| | | |a IHa|p];
    intros st k res; cbn [m].
  - intros H. exists st. split; [apply reaches_refl | exact H].
  - destruct (after st) as [|c rest] eqn:E; [discriminate|].
    destruct (p c); [|discriminate].
    intros H. eexists. split; [|exact H].
    exists [c]. simpl. now rewrite E.
  - intros H. apply IHa in H. destruct H as (st1 & Hr1 & H).
    apply IHb in H. destruct H as (st2 & Hr2 & H).
    exists st2. split; [eapply reaches_trans; eassumption | exact H].
  - destruct (m a st k) eqn:E.
    + intros [= ->]. now apply IHa.
    + apply IHb.
  - apply rep_loop_inv. exact IHa.
  - intros H. apply IHa in H. destruct H as (st1 & Hr1 & H).
    eexists. split; [|exact H]. exact Hr1.
  - destruct (before st); [|discriminate].
    intros H. exists st. split; [apply reaches_refl | exact H].
  - destruct (at_eol st); [|discriminate].
    intros H. exists st. split; [apply reaches_refl | exact H].
  - destruct (xorb _ _); [|discriminate].
    intros H. exists st. split; [apply reaches_refl | exact H].
  - destruct (m a st Some); [|discriminate].
    intros H. exists st. split; [apply reaches_refl | exact H].
  - destruct (before st) as [|c ?].
    + intros H. exists st. split; [apply reaches_refl | exact H].
    + destruct (p c); [discriminate|].
      intros H. exists st. split; [apply reaches_refl | exact H].
Qed.

(** A pattern that needs a character does not match where the text ahead
    lacks it. *)
Lemma needs_no_match (c : Z) (r : re) :
  needs c r ->
  forall st k, ~ In c (after st) -> m r st k = None.
Proof.
  induction r as [|p|a IHa b IHb|a IHa b IHb|g lo hi a IHa|n a IHa| | | |a IHa|p];
    cbn [m needs]; intros Hn st k Hc; try contradiction.
  - destruct (after st) as [|x rest] eqn:E; [reflexivity|].
    destruct (p x) eqn:Ep; [|reflexivity].
    exfalso. apply Hc. left. now apply Hn.
  - destruct Hn as [Hn|Hn]; [now apply IHa|].
    destruct (m a st _) eqn:E; [|reflexivity].
    apply m_inv in E. destruct E as (st1 & Hr & E).
    rewrite IHb in E; [discriminate | exact Hn |].
    intros Hin. apply Hc. eapply reaches_In; eassumption.
  - destruct Hn as [Ha Hb]. rewrite IHa by assumption. now apply IHb.
  - destruct Hn as [Hlo Hn]. cbn [rep_loop].
    assert (E : (lo <=? 0) = false) by (apply Nat.leb_gt; lia).
    rewrite E.
    destruct (below 0 hi); [rewrite IHa by assumption|]; now destruct g.
  - now apply IHa.
  - now rewrite IHa.
Qed.

Lemma needs_sub_from (c : Z) (r : re) :
  needs c r ->
  forall fuel bef aft, ~ In c aft -> sub_from fuel r bef aft = aft.
Proof.
  intros Hn. induction fuel as [|fuel IH]; intros bef aft Hc; simpl; [reflexivity|].
  unfold match_here. rewrite (needs_no_match c r Hn) by exact Hc.
  destruct aft as [|x aft]; [reflexivity|].
  rewrite IH; [reflexivity|].
  intros Hin. apply Hc. now right.
Qed.

(** Substituting a pattern leaves a text without a character that the
    pattern needs as it is. *)
Lemma needs_re_sub (c : Z) (r : re) (t : text) :
  needs c r -> ~ In c t -> re_sub r t = t.
Proof. intros Hn Hc. unfold re_sub. now apply (needs_sub_from c). Qed.

(** A character class is found in a text that holds one of its members. *)
Lemma found_Chr (p : Z -> bool) (c : Z) (t : text) :
  In c t -> p c = true -> found (Chr p) t = true.
Proof.
  intros Hin Hp. unfold found, re_search.
  generalize (@nil Z) as bef.
  induction t as [|x t IH]; intros bef; [contradiction|].
  simpl. unfold match_here. simpl.
  destruct (p x) eqn:E; [reflexivity|].
  destruct Hin as [->|Hin]; [congruence|].
  now apply IH.
Qed.

End MatcherFacts.

(** ** LanguageDetector *)

Lemma is_space_cases (c : Z) :
  is_space c = true -> (0x09 <= c <= 0x20 \/ 0x85 <= c <= 0x3000)%Z.
Proof.
  unfold is_space.
  rewrite !orb_true_iff, !andb_true_iff, !Z.leb_le, !Z.eqb_eq. lia.
Qed.

Lemma han_not_space (c : Z) : han c = true -> is_space c = false.
Proof.
  unfold han, range. rewrite andb_true_iff, !Z.leb_le. intros H.
  destruct (is_space c) eqn:E; [|reflexivity].
  apply is_space_cases in E. lia.
Qed.

Lemma max_from_fst {A : Type} (l : list (A * Q)) :
  forall best, In (fst (max_from best l)) (map fst (best :: l)).
Proof.
  induction l as [|x l IH]; intros best; simpl.
  - now left.
  - destruct (Qgt_bool (snd x) (snd best)).
    + right. apply (IH x).
    + destruct (IH best) as [H|H]; [now left | now right; right].
Qed.

Section DetectorFacts.
Context {U : UnicodeData}.

Lemma scores_langs (t : text) :
  map fst (scores t) = [ENGLISH; CHINESE; JAPANESE; KOREAN; RUSSIAN].
Proof. unfold scores. rewrite map_map. reflexivity. Qed.

(** C3, amended. A text that holds a code point of the range
    U+4E00..U+9FFF, the one that [_contains_chinese] tests, is detected as
    Chinese, whatever else it holds. *)
Theorem detect_han_is_chinese (t : text) :
  (exists c, In c t /\ han c = true) -> detect t = CHINESE.
Proof.
  intros (c & Hin & Hc).
  assert (Hs : In c (strip t)) by (apply strip_In; auto using han_not_space).
  unfold detect.
  destruct t as [|x t]; [contradiction|].
  destruct (strip (x :: t)) as [|y u] eqn:E; [contradiction|].
  cbn [truthy negb orb].
  unfold _contains_chinese. now rewrite (found_Chr han c).
Qed.

(** C10. [detect] answers with one of the five languages that have
    patterns, or with Unknown: never French, German or Spanish. *)
Theorem detect_never_fr_de_es (t : text) :
  In (detect t) [UNKNOWN; ENGLISH; CHINESE; JAPANESE; KOREAN; RUSSIAN]
  /\ detect t <> FRENCH /\ detect t <> GERMAN /\ detect t <> SPANISH.
Proof.
  assert (H : In (detect t) [UNKNOWN; ENGLISH; CHINESE; JAPANESE; KOREAN; RUSSIAN]).
  { unfold detect.
    destruct (negb (truthy t) || negb (truthy (strip t))); [now left|].
    destruct (_contains_chinese (strip t)); [simpl; tauto|].
    assert (Hf : In (if found (Chr ascii_letter) (strip t) then ENGLISH else UNKNOWN)
                    [UNKNOWN; ENGLISH; CHINESE; JAPANESE; KOREAN; RUSSIAN]).
    { destruct (found _ _); simpl; tauto. }
    destruct (py_max (scores (strip t))) as [best|] eqn:E; [|exact Hf].
    destruct (Qgt_bool (snd best) 0); [|exact Hf].
    unfold py_max in E.
    destruct (scores (strip t)) as [|x l] eqn:Es; [discriminate|].
    injection E as <-.
    pose proof (max_from_fst l x) as Hm.
    rewrite <- Es, scores_langs in Hm.
    simpl in Hm |- *. tauto. }
  split; [exact H|].
  simpl in H.
  repeat split; intros E; rewrite E in H;
    repeat (destruct H as [H|H]; [discriminate|]); exact H.
Qed.

(** For a target that [lang_map] lists, [should_translate] is false
    exactly when the detected language is the target's. *)
Lemma should_translate_mapped (t target : text) (l : Language) :
  dict_get target lang_map = Some l ->
  should_translate t target = negb (bool_decide (detect t = l)).
Proof.
  intros H. unfold should_translate. rewrite H.
  destruct (bool_decide (detect t = l)); [reflexivity|].
  destruct (bool_decide (detect t = UNKNOWN)); [reflexivity|].
  now destruct (_ || _).
Qed.

(** C1. The target [zh], which [BaiduTranslator.translate] passes, is not
    a key of [lang_map] and is taken for Unknown: a text whose language is
    unknown is then not translated, and a Chinese text is. *)
Theorem should_translate_zh :
  detect [] = UNKNOWN
  /\ should_translate [] (s "zh") = false
  /\ detect [0x4F60; 0x597D]%Z = CHINESE
  /\ should_translate [0x4F60; 0x597D]%Z (s "zh") = true
  /\ should_translate [0x4F60; 0x597D]%Z (s "zh-CN") = false.
Proof. repeat split; vm_compute; reflexivity. Qed.

End DetectorFacts.

(** ** MessageFilter: cleaning *)

Ltac find_needed :=
  first
    [ solve [ let x := fresh "x" in
              let Hx := fresh "Hx" in
              intros x Hx; unfold only in Hx; apply Z.eqb_eq in Hx; exact Hx ]
    | solve [ left; find_needed ]
    | solve [ right; find_needed ] ].

Lemma remove_char_absent (c : Z) (t : text) :
  ~ In c t -> remove_char c t = t.
Proof.
  intros H. induction t as [|x t IH]; [reflexivity|].
  unfold remove_char in *. simpl.
  destruct (Z.eqb_spec x c) as [->|Hne]; simpl.
  - exfalso. apply H. now left.
  - rewrite IH; [reflexivity|]. intros Hin. apply H. now right.
Qed.

Section CleaningFacts.
Context {U : UnicodeData}.

(** Each pattern that [clean_message] removes has to read an opening
    bracket or a section sign. *)
Lemma patterns_to_remove_need :
  Forall (fun pat => needs (ch "[") pat \/ needs sect pat) patterns_to_remove.
Proof.
  unfold patterns_to_remove.
  repeat (apply List.Forall_cons; [cbn; find_needed|]).
  apply List.Forall_nil.
Qed.

Lemma color_code_needs : needs sect color_code.
Proof. cbn. find_needed. Qed.

Lemma stray_code_letter_needs : needs (ch "[") stray_code_letter.
Proof. cbn. find_needed. Qed.

Lemma fold_sub_plain (a b : Z) (pats : list re) (t : text) :
  Forall (fun pat => needs a pat \/ needs b pat) pats ->
  ~ In a t -> ~ In b t ->
  fold_left (fun cleaned pat => re_sub pat cleaned) pats t = t.
Proof.
  intros H Ha Hb. induction H as [|pat pats [Hp|Hp] _ IH]; simpl.
  - reflexivity.
  - rewrite (needs_re_sub a) by assumption. exact IH.
  - rewrite (needs_re_sub b) by assumption. exact IH.
Qed.

(** On a text without bracket and section sign, cleaning only strips. *)
Lemma clean_message_plain (t : text) :
  ~ In (ch "[") t -> ~ In sect t -> clean_message t = strip t.
Proof.
  intros Hb Hs. unfold clean_message.
  rewrite (fold_sub_plain (ch "[") sect) by auto using patterns_to_remove_need.
  rewrite (needs_re_sub sect color_code) by auto using color_code_needs.
  rewrite remove_char_absent by exact Hs.
  rewrite (needs_re_sub (ch "[") stray_code_letter)
    by auto using stray_code_letter_needs.
  now destruct (truthy (strip t)).
Qed.

Lemma clean_message_stripped (t : text) :
  strip (clean_message t) = clean_message t.
Proof.
  unfold clean_message. destruct (truthy _); apply strip_idem.
Qed.

(** C2, amended. Cleaning a second time changes nothing when the cleaned
    line holds no opening bracket and no section sign. *)
Theorem clean_message_idempotent_plain (L : text) :
  ~ In (ch "[") (clean_message L) ->
  ~ In sect (clean_message L) ->
  clean_message (clean_message L) = clean_message L.
Proof.
  intros Hb Hs.
  rewrite clean_message_plain by assumption.
  apply clean_message_stripped.
Qed.

End CleaningFacts.

(** ** MessageFilter: extraction *)

Section ExtractFacts.
Context {U : UnicodeData}.

Lemma greedy_run (p : Z -> bool) body (lo : nat) (k : mstate -> option mstate)
    (rest : list Z) (res : mstate) :
  one_char p body ->
  match rest with c :: _ => p c = false | [] => True end ->
  forall xs fuel i bef cs,
    Forall (fun c => p c = true) xs ->
    lo <= i + length xs ->
    length xs < fuel ->
    k (MState (rev xs ++ bef) rest cs) = Some res ->
    rep_loop body true lo None k fuel i (MState bef (xs ++ rest) cs)
    = Some res.
Proof.
  intros Hbody Hrest.
  induction xs as [|x xs IH]; intros fuel i bef cs Hall Hlo Hfuel Hk.
  - destruct fuel as [|fuel]; [simpl in Hfuel; lia|].
    simpl in Hlo, Hk. cbn [rep_loop below app]. rewrite Hbody. cbn [after].
    assert (E : (lo <=? i) = true) by (apply Nat.leb_le; lia).
    destruct rest as [|c rest]; [now rewrite E|].
    now rewrite Hrest, E.
  - destruct fuel as [|fuel]; [simpl in Hfuel; lia|].
    inversion Hall as [|? ? Hx Hall']; subst.
    cbn [rep_loop below app]. rewrite Hbody. cbn [after]. rewrite Hx.
    unfold shorter, advance. cbn [after before caps].
    assert (E : (length (xs ++ rest) <? length (x :: xs ++ rest)) = true)
      by (apply Nat.ltb_lt; simpl; lia).
    rewrite E.
    rewrite (IH fuel (S i) (x :: bef) cs); [reflexivity | exact Hall' | | | ].
    + simpl in Hlo. lia.
    + simpl in Hfuel. lia.
    + simpl in Hk. now rewrite <- app_assoc in Hk.
Qed.

Lemma m_greedy_run (p : Z -> bool) (lo : nat) (k : mstate -> option mstate)
    (xs rest bef : list Z) (cs : list (nat * text)) (res : mstate) :
  match rest with c :: _ => p c = false | [] => True end ->
  Forall (fun c => p c = true) xs ->
  lo <= length xs ->
  k (MState (rev xs ++ bef) rest cs) = Some res ->
  m (Rep true lo None (Chr p)) (MState bef (xs ++ rest) cs) k = Some res.
Proof.
  intros Hrest Hall Hlo Hk. cbn [m after].
  apply (greedy_run p); auto.
  - intros st k'. reflexivity.
  - rewrite length_app. lia.
Qed.

Lemma m_cat_cons (r : re) (rs : list re) st k :
  m (cat (r :: rs)) st k = m r st (fun st' => m (cat rs) st' k).
Proof. reflexivity. Qed.

Lemma m_cat_nil st k : m (cat []) st k = k st.
Proof. reflexivity. Qed.

Lemma m_only (c : Z) rest bef cs k :
  m (cat [Chr (only c)]) (MState bef (c :: rest) cs) k
  = k (MState (c :: bef) rest cs).
Proof. cbn [cat fold_right m after]. unfold only. now rewrite Z.eqb_refl. Qed.











End ExtractFacts.

(** ** The dispatchers *)

Lemma text_eqb_refl (t : text) : text_eqb t t = true.
Proof. unfold text_eqb. now apply bool_decide_eq_true_2. Qed.

Lemma text_eqb_neq (a b : text) : a <> b -> text_eqb a b = false.
Proof. unfold text_eqb. now apply bool_decide_eq_false_2. Qed.


Section DispatcherFacts.
Context {U : UnicodeData}.






(** *** The Tk dispatcher *)

Lemma auto_translate_step (tr : translator) (message : text) (now : Q) :
  _auto_last_msg tr <> Some message ->
  let tr' := _auto_translate_message tr message (s "chat") now in
  _auto_last_msg tr' = Some message
  /\ _auto_queue_limit tr' = _auto_queue_limit tr
  /\ length (_auto_translate_queue tr')
     = if _auto_queue_limit tr <=? length (_auto_translate_queue tr)
       then length (_auto_translate_queue tr)
       else S (length (_auto_translate_queue tr)).
Proof.
  intros Hlast. unfold _auto_translate_message.
  rewrite text_eqb_refl. cbn [negb]. rewrite andb_false_r.
  assert (E : match _auto_last_msg tr with
              | Some last => text_eqb message last
              | None => false
              end = false).
  { destruct (_auto_last_msg tr) as [last|]; [|reflexivity].
    apply text_eqb_neq. congruence. }
  rewrite E. cbn [andb].
  destruct (_auto_queue_limit tr <=? length (_auto_translate_queue tr));
    cbn [debounced _auto_last_msg _auto_queue_limit _auto_translate_queue];
    repeat split.
  rewrite length_app. simpl. lia.
Qed.

(** X15. The queue limit of [_auto_translate_message]: chat messages of which
    no two in a row are the same fill the queue up to
    [_auto_queue_limit] and the rest is dropped. *)
Lemma auto_translate_queue_limit (calls : list (text * text * Q)) :
  forall tr,
    Forall (fun c => snd (fst c) = s "chat") calls ->
    no_repeat (_auto_last_msg tr) calls ->
    length (_auto_translate_queue tr) <= _auto_queue_limit tr ->
    length (_auto_translate_queue (auto_feed tr calls))
    = Nat.min (length (_auto_translate_queue tr) + length calls)
              (_auto_queue_limit tr).
Proof.
  induction calls as [|[[message msg_type] now] calls IH];
    intros tr Hchat Hrep Hlen.
  - simpl. lia.
  - inversion Hchat as [|? ? Hc Hchat']; subst. simpl in Hc. subst msg_type.
    destruct Hrep as [Hlast Hrep]. simpl in Hlast, Hrep.
    cbn [auto_feed fold_left fst snd].
    fold (auto_feed (_auto_translate_message tr message (s "chat") now) calls).
    destruct (auto_translate_step tr message now Hlast) as (Hl & Hlim & Hq).
    rewrite IH; [| exact Hchat' | now rewrite Hl | ].
    + rewrite Hlim, Hq.
      destruct (Nat.leb_spec (_auto_queue_limit tr)
                  (length (_auto_translate_queue tr))); cbn [length]; lia.
    + rewrite Hlim, Hq.
      destruct (Nat.leb_spec (_auto_queue_limit tr)
                  (length (_auto_translate_queue tr))); lia.
Qed.

(** X14. The debounce of [_auto_translate_message]: a message equal to the
    last one, less than a second after it, is not queued again; the queue,
    the pending set and the debounce fields stay as they are. *)
Lemma auto_translate_debounce (tr : translator) (message msg_type : text) (now : Q) :
  _auto_last_msg tr = Some message ->
  (now - _auto_last_ts tr < 1)%Q ->
  _auto_translate_message tr message msg_type now = tr.
Proof.
  intros Hlast Hnow. unfold _auto_translate_message.
  destruct (_ && _ && _); [reflexivity|].
  rewrite Hlast, text_eqb_refl.
  assert (E : Qgt_bool 1 (now - _auto_last_ts tr) = true).
  { unfold Qgt_bool. apply negb_true_iff.
    destruct (Qle_bool 1 (now - _auto_last_ts tr)) eqn:E'; [|reflexivity].
    apply Qle_bool_iff in E'. exfalso. now apply (Qlt_not_le _ _ Hnow). }
  now rewrite E.
Qed.

End DispatcherFacts.

(** ** The translation cache *)

Section CacheFacts.
Context {U : UnicodeData}.
Variable normalize : text -> text.

Lemma cache_get_set (c : gmap (text * text * text) text)
    (t engine target v : text) :
  cache_get normalize (cache_set normalize c t engine target v) t engine target
  = Some v.
Proof. unfold cache_get, cache_set. apply lookup_insert_eq. Qed.

(** C4. A request that missed the cache, reached the provider and got a
    translation without error is followed by the same request: the second
    one returns the same text as a cache hit and leaves the state, with
    its list of calls to the provider, as it was. *)
Theorem translate_core_cached
    (provider provider' : engine_call -> engine_reply)
    (ui : core_ui) (st st' : core_state) (t : text) (smart : bool)
    (r : core_result) :
  _translate_core normalize provider ui st t smart = (r, st') ->
  length (engine_calls st') = S (length (engine_calls st)) ->
  truthy_opt (translated r) = true ->
  truthy_opt (error r) = false ->
  _translate_core normalize provider' ui st' t smart
  = (CoreResult (translated r) None true (s "auto"), st').
Proof.
  unfold _translate_core at 1.
  destruct (truthy_opt (cache_get normalize (cache st) t _ _)).
  { intros [= <- <-] Hcalls. lia. }
  destruct (_ && _ && _).
  { intros [= <- <-] Hcalls. lia. }
  set (call := EngineCall _ _ _ _).
  destruct (provider call) as [tr er]. cbn [fst snd].
  destruct (truthy_opt tr && negb (truthy_opt er)) eqn:Hok.
  - intros [= <- <-] _ Htr _. cbn [translated] in *.
    destruct tr as [v|]; [|discriminate].
    change (default [] (Some v)) with v.
    unfold _translate_core. cbn [cache].
    rewrite cache_get_set. cbn [truthy_opt] in Htr |- *. now rewrite Htr.
  - intros [= <- <-] _ Htr Her. cbn [translated error] in *.
    rewrite Htr, Her in Hok. discriminate.
Qed.

End CacheFacts.

(** ** The log monitor *)

Lemma poll_sets_offset (last_position size : Z) (o : poll_obs) :
  getsize o = Some size ->
  end_of_file o = size ->
  fst (poll last_position o) = size.
Proof.
  intros Hsize Heof. unfold poll. rewrite Hsize.
  destruct (Z.ltb_spec size last_position) as [Hlt|Hge]; cbn [fst]; [exact Heof|].
  destruct (Z.gtb_spec size last_position) as [Hgt|Hle]; cbn [fst]; lia.
Qed.


(** When the file at the path has been replaced by a shorter one, the open
    file still ends where the old one did: the offset stays there, beyond
    the size of the path, and nothing is handed on for as long as the new
    file is shorter than the old one was. *)
Lemma monitor_loop_replaced_file (eof : Z) (obs : list poll_obs) :
  Forall (fun o => end_of_file o = eof
                   /\ exists size, getsize o = Some size /\ (size < eof)%Z) obs ->
  monitor_loop eof obs = eof
  /\ Forall (fun o => snd (poll eof o) = None) obs.
Proof.
  unfold monitor_loop.
  induction 1 as [|o obs (Heof & size & Hsize & Hlt) _ IH]; [now split|].
  assert (E : poll eof o = (eof, None)).
  { unfold poll. rewrite Hsize.
    destruct (Z.ltb_spec size eof) as [_|Hge]; [now rewrite Heof | lia]. }
  cbn [fold_left]. rewrite E. cbn [fst]. split; [apply IH|].
  constructor; [now rewrite E | apply IH].
Qed.

(** The loop keeps the offset at the size it saw last. *)
Lemma monitor_loop_offset (opened_at size : Z) (obs : list poll_obs) (o : poll_obs) :
  getsize o = Some size ->
  end_of_file o = size ->
  monitor_loop opened_at (obs ++ [o]) = size.
Proof.
  intros Hsize Heof. unfold monitor_loop. rewrite fold_left_app. simpl.
  now apply poll_sets_offset.
Qed.

(** * Worked examples

    The examples run the definitions under [ascii_ucd] on texts made of
    ASCII characters and ideographs. *)

Section Examples.
#[local] Existing Instance ascii_ucd.

Ltac absent := cbv; intuition discriminate.

(** C2, counterexample. Removing the thread tag of this line uncovers a
    timestamp, which only a second cleaning removes. *)
Lemma clean_message_second_pass :
  clean_message (s "[Server thread/INFO]: [12:34:56] <Steve> hi")
  = s "[12:34:56] <Steve> hi"
  /\ clean_message (clean_message (s "[Server thread/INFO]: [12:34:56] <Steve> hi"))
     = s "<Steve> hi"
  /\ clean_message (clean_message (s "[Server thread/INFO]: [12:34:56] <Steve> hi"))
     <> clean_message (s "[Server thread/INFO]: [12:34:56] <Steve> hi").
Proof.
  split; [vm_compute; reflexivity|].
  split; [vm_compute; reflexivity|].
  vm_compute. discriminate.
Qed.

Lemma clean_message_idempotent_plain_witness :
  let L := s "[12:34:56] [Client thread/INFO]: [CHAT] <Steve> hello" in
  ~ In (ch "[") (clean_message L)
  /\ ~ In sect (clean_message L)
  /\ clean_message (clean_message L) = clean_message L.
Proof.
  intros L.
  assert (Hb : ~ In (ch "[") (clean_message L)) by absent.
  assert (Hs : ~ In sect (clean_message L)) by absent.
  exact (conj Hb (conj Hs (clean_message_idempotent_plain L Hb Hs))).
Defined.

Lemma detect_han_is_chinese_witness :
  (exists c, In c [0x4F60; 0x3042; 0x3044]%Z /\ han c = true)
  /\ detect [0x4F60; 0x3042; 0x3044]%Z = CHINESE.
Proof.
  assert (H : exists c, In c [0x4F60; 0x3042; 0x3044]%Z /\ han c = true).
  { exists 0x4F60%Z. split; [now left | reflexivity]. }
  exact (conj H (detect_han_is_chinese _ H)).
Defined.

(** C3, counterexample. U+3400 is a Han code point of Extension A, which
    the patterns of Chinese list. Followed by two hiragana it does not
    take the shortcut: the text is scored, 2 for Japanese against 1 for
    Chinese, and detected as Japanese. *)
Theorem detect_extension_a_with_kana :
  In (CHINESE, [Chr (range 0x4E00 0x9FFF); Chr (range 0x3400 0x4DBF);
                Chr (range 0x20000 0x2A6DF)]) language_patterns
  /\ found (Chr (range 0x3400 0x4DBF)) [0x3400; 0x3042; 0x3044]%Z = true
  /\ _contains_chinese [0x3400; 0x3042; 0x3044]%Z = false
  /\ detect [0x3400; 0x3042; 0x3044]%Z = JAPANESE
  /\ detect [0x3400; 0x3042; 0x3044]%Z <> CHINESE.
Proof.
  split; [right; left; reflexivity|].
  do 3 (split; [vm_compute; reflexivity|]).
  vm_compute. discriminate.
Qed.

(** C7. The line of the memory statistics matches the colon shape of the
    chat patterns, but its speaker would be the reserved token Max:
    extraction gives no speaker, the line is typed as information and not
    as chat, and the filter does not keep it. *)
Theorem max_line_is_not_chat :
  found colon_shape (s "Max: 256 (512)") = true
  /\ is_reserved (s "Max") = true
  /\ clean_message (s "Max: 256 (512)") = s "Max: 256 (512)"
  /\ extract_player_message (s "Max: 256 (512)") = (None, s "Max: 256 (512)")
  /\ (forall o, msg_type_of o (s "Max: 256 (512)") = s "info")
  /\ (forall o, msg_type_of o (s "Max: 256 (512)") <> s "chat")
  /\ (forall ks kr, should_keep (FilterOptions true ks kr) (s "Max: 256 (512)") = false).
Proof.
  do 4 (split; [vm_compute; reflexivity|]).
  split; [intros [[] [] []]; vm_compute; reflexivity|].
  split; [intros [[] [] []]; vm_compute; discriminate|].
  intros [] []; vm_compute; reflexivity.
Qed.

(** [is_player_chat] on its own accepts the same line: the colon shape of
    [chat_patterns] matches in the loop, before the test of the reserved
    tokens in the [colon_chat] branch is reached. [should_keep] does not
    get that far on this line, which the drop rule for memory statistics
    removes first. *)
Lemma is_player_chat_max_line :
  is_player_chat (s "Max: 256 (512)") = true
  /\ existsb (fun pat => found pat (s "Max: 256 (512)"))
             (filter_patterns (FilterOptions true false false)) = true.
Proof. split; vm_compute; reflexivity. Qed.


(** White space at the end of the message is not recovered either. *)
Lemma extract_strips_message :
  extract_player_message (clean_message (chat_line (s "Steve") (s "hi ")))
  = (Some (s "Steve"), s "hi").
Proof. vm_compute. reflexivity. Qed.


(** C6. [on_log] has no debounce: the same chat line handed over twice
    is queued twice. *)
Theorem on_log_queues_identical_line_twice :
  auto_q (on_log_event (on_log_event example_window example_event) example_event)
  = [ Payload (s "hi") (Some (s "Steve")) (s "<Steve> hi");
      Payload (s "hi") (Some (s "Steve")) (s "<Steve> hi") ].
Proof. vm_compute. reflexivity. Qed.


Lemma translate_core_cached_witness :
  let first := _translate_core (fun t => t) example_provider example_ui
                 (CoreState ∅ []) (s "hello") true in
  length (engine_calls (snd first)) = 1
  /\ truthy_opt (translated (fst first)) = true
  /\ truthy_opt (error (fst first)) = false
  /\ _translate_core (fun t => t) example_outage example_ui (snd first)
       (s "hello") true
     = (CoreResult (translated (fst first)) None true (s "auto"), snd first).
Proof.
  intros first.
  assert (H1 : length (engine_calls (snd first)) = 1) by reflexivity.
  assert (H2 : truthy_opt (translated (fst first)) = true) by reflexivity.
  assert (H3 : truthy_opt (error (fst first)) = false) by reflexivity.
  repeat (split; [assumption|]).
  exact (translate_core_cached (fun t => t) example_provider example_outage
           example_ui (CoreState ∅ []) (snd first) (s "hello") true (fst first)
           (surjective_pairing first) H1 H2 H3).
Defined.

End Examples.



(** * Further properties *)

(** ** LanguageDetector *)

Lemma lstrip_blank (t : text) :
  Forall (fun c => is_space c = true) t -> lstrip t = [].
Proof.
  induction 1 as [|c t Hc _ IH]; simpl; [reflexivity|]. now rewrite Hc.
Qed.

Lemma strip_blank (t : text) :
  Forall (fun c => is_space c = true) t -> strip t = [].
Proof. intros H. unfold strip. now rewrite lstrip_blank. Qed.

Lemma lstrip_suffix (t : text) : exists p, t = p ++ lstrip t.
Proof.
  induction t as [|c t [p IH]]; simpl; [now exists []|].
  destruct (is_space c).
  - exists (c :: p). simpl. now f_equal.
  - now exists [].
Qed.

Lemma rstrip_prefix (t : text) : exists q, t = rstrip t ++ q.
Proof.
  destruct (lstrip_suffix (rev t)) as [p Hp]. exists (rev p).
  unfold rstrip. rewrite <- rev_app_distr, <- Hp. symmetry. apply rev_involutive.
Qed.

Lemma strip_incl (c : Z) (t : text) : In c (strip t) -> In c t.
Proof.
  unfold strip. intros H.
  destruct (rstrip_prefix (lstrip t)) as [q Hq].
  destruct (lstrip_suffix t) as [p Hp].
  rewrite Hp, Hq. apply in_or_app. right. apply in_or_app. now left.
Qed.

Lemma ascii_letter_not_space (c : Z) : ascii_letter c = true -> is_space c = false.
Proof.
  unfold ascii_letter, either, range.
  rewrite orb_true_iff, !andb_true_iff, !Z.leb_le. intros H.
  destruct (is_space c) eqn:E; [|reflexivity].
  apply is_space_cases in E. lia.
Qed.

Lemma found_Chr_inv `{UnicodeData} (p : Z -> bool) (t : text) :
  found (Chr p) t = true -> exists c, In c t /\ p c = true.
Proof.
  unfold found, re_search. generalize (@nil Z) as bef.
  induction t as [|x t IH]; intros bef; simpl; unfold match_here; simpl.
  - discriminate.
  - destruct (p x) eqn:E.
    + intros _. exists x. split; [now left | exact E].
    + intros Hf. destruct (IH _ Hf) as (c & Hin & Hc).
      exists c. split; [now right | exact Hc].
Qed.

Section DetectorMore.
Context {U : UnicodeData}.

Lemma detect_of_han (t : text) (c : Z) :
  In c t -> han c = true -> detect t = CHINESE.
Proof.
  intros Hin Hc.
  assert (Hs : In c (strip t)) by (apply strip_In; auto using han_not_space).
  unfold detect.
  destruct t as [|x t]; [contradiction|].
  destruct (strip (x :: t)) as [|y u] eqn:E; [contradiction|].
  cbn [truthy negb orb].
  unfold _contains_chinese. now rewrite (found_Chr han c).
Qed.

Lemma detect_blank_text (t : text) :
  Forall (fun c => is_space c = true) t -> detect t = UNKNOWN.
Proof.
  intros H. unfold detect. rewrite (strip_blank t H).
  cbn [truthy negb]. now rewrite orb_true_r.
Qed.

Lemma lang_map_known (target : text) (l : Language) :
  dict_get target lang_map = Some l -> l <> UNKNOWN.
Proof.
  unfold lang_map. cbn [dict_get].
  repeat (destruct (text_eqb target _); [intros [= <-]; discriminate|]).
  discriminate.
Qed.

(** X1. A text made of white space only, the empty text included, is
    detected as Unknown. *)
Theorem detect_blank (t : text) :
  Forall (fun c => is_space c = true) t -> detect t = UNKNOWN.
Proof. apply detect_blank_text. Qed.

(** X2. White space around a text does not change what is detected. *)
Theorem detect_strip (t : text) : detect (strip t) = detect t.
Proof.
  unfold detect. rewrite strip_idem.
  destruct t as [|c t]; [reflexivity|].
  cbn [truthy negb orb].
  now destruct (truthy (strip (c :: t))).
Qed.

(** X3. A text that holds an ASCII letter is never detected as Unknown. *)
Theorem detect_letter_known (t : text) :
  (exists c, In c t /\ ascii_letter c = true) -> detect t <> UNKNOWN.
Proof.
  intros (c & Hin & Hc).
  assert (Hs : In c (strip t))
    by (apply strip_In; auto using ascii_letter_not_space).
  unfold detect.
  destruct t as [|x t]; [contradiction|].
  destruct (strip (x :: t)) as [|y u] eqn:E; [contradiction|].
  cbn [truthy negb orb].
  destruct (_contains_chinese (y :: u)); [discriminate|].
  rewrite (found_Chr ascii_letter c) by assumption.
  destruct (py_max (scores (y :: u))) as [best|] eqn:Em; [|discriminate].
  destruct (Qgt_bool (snd best) 0); [|discriminate].
  unfold py_max in Em.
  destruct (scores (y :: u)) as [|x0 l] eqn:Es; [discriminate|].
  injection Em as <-.
  pose proof (max_from_fst l x0) as Hm.
  rewrite <- Es, scores_langs in Hm.
  intros Hu. rewrite Hu in Hm. simpl in Hm.
  repeat (destruct Hm as [Hm|Hm]; [discriminate|]). exact Hm.
Qed.

(** X4. For a target that [lang_map] lists, [should_translate] is false
    exactly when the detected language is the language of the target; a
    text detected as Unknown is then always translated. *)
Theorem should_translate_listed (t target : text) (l : Language) :
  dict_get target lang_map = Some l ->
  (should_translate t target = false <-> detect t = l)
  /\ (detect t = UNKNOWN -> should_translate t target = true).
Proof.
  intros H. rewrite (should_translate_mapped t target l H).
  pose proof (lang_map_known target l H) as Hl.
  split.
  - rewrite negb_false_iff. apply bool_decide_eq_true.
  - intros Hu. apply negb_true_iff, bool_decide_eq_false. congruence.
Qed.

End DetectorMore.

(** ** Cleaning *)

Lemma sublist_In {A : Type} (l1 l2 : list A) (x : A) :
  sublist l1 l2 -> In x l1 -> In x l2.
Proof.
  induction 1 as [|y l1 l2 _ IH|y l1 l2 _ IH]; simpl; [tauto| |].
  - intros [->|H]; [now left | right; auto].
  - intros H. right. auto.
Qed.

Lemma lstrip_sublist (t : text) : sublist (lstrip t) t.
Proof.
  destruct (lstrip_suffix t) as [p Hp]. rewrite Hp at 2.
  now apply sublist_inserts_l.
Qed.

Lemma strip_sublist (t : text) : sublist (strip t) t.
Proof.
  unfold strip. transitivity (lstrip t); [|apply lstrip_sublist].
  destruct (rstrip_prefix (lstrip t)) as [q Hq]. rewrite Hq at 2.
  now apply sublist_inserts_r.
Qed.

Lemma remove_char_sublist (c : Z) (t : text) : sublist (remove_char c t) t.
Proof.
  unfold remove_char. induction t as [|x t IH]; simpl; [constructor|].
  destruct (negb (x =? c)%Z); now constructor.
Qed.

Lemma remove_char_In (c : Z) (t : text) : ~ In c (remove_char c t).
Proof.
  unfold remove_char. intros H. apply filter_In in H. destruct H as [_ H].
  now rewrite Z.eqb_refl in H.
Qed.

Section CleaningMore.
Context {U : UnicodeData}.

Lemma sub_from_sublist (r : re) (fuel : nat) :
  forall bef aft, sublist (sub_from fuel r bef aft) aft.
Proof.
  induction fuel as [|fuel IH]; intros bef aft; simpl; [reflexivity|].
  assert (Hskip : sublist match aft with
                          | [] => []
                          | c :: aft' => c :: sub_from fuel r (c :: bef) aft'
                          end aft).
  { destruct aft as [|c aft']; [constructor|]. constructor. apply IH. }
  destruct (match_here r bef aft) as [st'|] eqn:E; [|exact Hskip].
  destruct (length (after st') <? length aft); [|exact Hskip].
  unfold match_here in E. apply m_inv in E.
  destruct E as (st1 & [pre Hpre] & [= ->]). cbn [after] in Hpre.
  rewrite Hpre. apply sublist_inserts_l, IH.
Qed.

Lemma re_sub_sublist (r : re) (t : text) : sublist (re_sub r t) t.
Proof. apply sub_from_sublist. Qed.

Lemma fold_sub_sublist (pats : list re) :
  forall t, sublist (fold_left (fun cleaned pat => re_sub pat cleaned) pats t) t.
Proof.
  induction pats as [|pat pats IH]; intros t; simpl; [reflexivity|].
  transitivity (re_sub pat t); [apply IH | apply re_sub_sublist].
Qed.

(** X5. The result of [clean_message] has no white space at either end,
    and it is empty only for a blank line. *)
Theorem clean_message_trimmed (t : text) :
  strip (clean_message t) = clean_message t
  /\ (clean_message t = [] <-> strip t = []).
Proof.
  split; [apply clean_message_stripped|].
  split.
  - unfold clean_message.
    destruct (strip (re_sub _ _)) as [|c u]; cbn [truthy]; [tauto | discriminate].
  - intros Hb.
    assert (Hin : forall c, In c t -> is_space c = true).
    { intros c Hc. destruct (is_space c) eqn:E; [reflexivity|].
      apply (strip_In c t E) in Hc. rewrite Hb in Hc. contradiction. }
    rewrite clean_message_plain; [exact Hb | |].
    + intros H. apply Hin in H. discriminate H.
    + intros H. apply Hin in H. discriminate H.
Qed.

(** X6. Cleaning only deletes: the result of [clean_message] is made of
    characters of the line, in their order. *)
Theorem clean_message_sublist (t : text) : sublist (clean_message t) t.
Proof.
  unfold clean_message.
  destruct (truthy _); [|apply strip_sublist].
  etransitivity; [apply strip_sublist|].
  etransitivity; [apply re_sub_sublist|].
  etransitivity; [apply remove_char_sublist|].
  etransitivity; [apply re_sub_sublist|].
  apply fold_sub_sublist.
Qed.

(** X7. A section sign is left in the result of [clean_message] only when
    nothing else would be left, in which case the result is the stripped
    line itself. *)
Theorem clean_message_section_sign (t : text) :
  In sect (clean_message t) -> clean_message t = strip t.
Proof.
  unfold clean_message.
  destruct (truthy _); [|reflexivity].
  intros H. exfalso.
  apply (sublist_In _ _ _ (strip_sublist _)) in H.
  apply (sublist_In _ _ _ (re_sub_sublist _ _)) in H.
  now apply remove_char_In in H.
Qed.

End CleaningMore.

(** ** Classification *)

Lemma span_run (p : Z -> bool) (l : list Z) :
  exists xs rest,
    l = xs ++ rest
    /\ Forall (fun c => p c = true) xs
    /\ match rest with c :: _ => p c = false | [] => True end.
Proof.
  induction l as [|c l (xs & rest & -> & Hxs & Hrest)].
  - exists [], []. repeat split. constructor.
  - destruct (p c) eqn:E.
    + exists (c :: xs), rest. repeat split; [now constructor | exact Hrest].
    + exists [], (c :: xs ++ rest). repeat split; [constructor | exact E].
Qed.

Lemma firstn_incl {A : Type} (n : nat) (l : list A) (x : A) :
  In x (firstn n l) -> In x l.
Proof.
  revert l. induction n as [|n IH]; intros [|y l]; simpl; try tauto.
  intros [->|H]; [now left | right; auto].
Qed.

Lemma get_cap_In (n : nat) (cs : list (nat * text)) (t : text) :
  get_cap n cs = Some t -> In (n, t) cs.
Proof.
  induction cs as [|[i u] cs IH]; simpl; [discriminate|].
  destruct (Nat.eqb_spec i n) as [->|_].
  - intros [= ->]. now left.
  - intros H. right. auto.
Qed.

Section ClassificationMore.
Context {U : UnicodeData}.

Lemma rep_loop_keeps txt body greedy lo hi k fuel :
  keeps txt body ->
  forall i st res,
    within txt st ->
    rep_loop body greedy lo hi k fuel i st = Some res ->
    exists st', within txt st' /\ k st' = Some res.
Proof.
  intros Hb. induction fuel as [|fuel IH]; intros i st res Hw; simpl; [discriminate|].
  assert (Hagain :
    (if below i hi
     then body st (fun st' => if shorter st' st
                              then rep_loop body greedy lo hi k fuel (S i) st'
                              else None)
     else None) = Some res ->
    exists st', within txt st' /\ k st' = Some res).
  { destruct (below i hi); [|discriminate].
    intros H. apply Hb in H; [|exact Hw]. destruct H as (st1 & Hw1 & H).
    destruct (shorter st1 st); [|discriminate].
    now apply IH in H. }
  assert (Hstop :
    (if lo <=? i then k st else None) = Some res ->
    exists st', within txt st' /\ k st' = Some res).
  { destruct (lo <=? i); [|discriminate]. intros H. now exists st. }
  destruct greedy.
  - destruct (if below i hi then _ else None) eqn:E.
    + intros [= ->]. now apply Hagain.
    + exact Hstop.
  - destruct (if lo <=? i then _ else None) eqn:E.
    + intros [= ->]. now apply Hstop.
    + exact Hagain.
Qed.

(** What a match captures is made of characters of the text. *)
Lemma m_keeps (txt : list Z) (r : re) : keeps txt (m r).
Proof.
  induction r as [|p|a IHa b IHb|a IHa b IHb|g lo hi a IHa|n a IHa| | | |a IHa|p];
    intros st k res Hw; cbn [m].
  - intros H. now exists st.
  - destruct (after st) as [|c rest] eqn:E; [discriminate|].
    destruct (p c); [|discriminate].
    intros H. eexists. split; [|exact H].
    destruct Hw as [Ha Hc]. split; [|exact Hc].
    cbn [advance after]. intros x Hx. apply Ha. rewrite E. now right.
  - intros H. apply IHa in H; [|exact Hw]. destruct H as (st1 & Hw1 & H).
    now apply IHb in H.
  - destruct (m a st k) eqn:E.
    + intros [= ->]. now apply (IHa st k).
    + now apply IHb.
  - now apply rep_loop_keeps.
  - intros H. apply IHa in H; [|exact Hw]. destruct H as (st1 & Hw1 & H).
    eexists. split; [|exact H].
    destruct Hw as [Ha Hc]. destruct Hw1 as [Ha1 Hc1].
    split; [exact Ha1|]. cbn [set_cap caps]. constructor; [|exact Hc1].
    cbn [snd]. intros x Hx. apply Ha. eapply firstn_incl; eauto.
  - destruct (before st); [|discriminate]. intros H. now exists st.
  - destruct (at_eol st); [|discriminate]. intros H. now exists st.
  - destruct (xorb _ _); [|discriminate]. intros H. now exists st.
  - destruct (m a st Some); [|discriminate]. intros H. now exists st.
  - destruct (before st) as [|c ?].
    + intros H. now exists st.
    + destruct (p c); [discriminate|]. intros H. now exists st.
Qed.

Lemma group_incl (r : re) (t : text) (mt : mstate) (n : nat) :
  re_match r t = Some mt -> incl (group n mt) t.
Proof.
  unfold re_match, match_here. intros H.
  apply (m_keeps t) in H.
  - destruct H as (st' & [_ Hc] & [= ->]).
    unfold group. destruct (get_cap n (caps mt)) as [u|] eqn:E.
    + apply get_cap_In in E. rewrite List.Forall_forall in Hc.
      exact (Hc _ E).
    + intros x [].
  - split; [apply incl_refl | constructor].
Qed.

(** X8. [is_player_chat] accepts only a text that holds an ASCII letter or
    an ideograph of U+4E00..U+9FFF. *)
Theorem is_player_chat_has_letter (cleaned : text) :
  is_player_chat cleaned = true ->
  exists c, In c cleaned /\ letter_or_han c = true.
Proof.
  unfold is_player_chat.
  destruct (negb (truthy cleaned)); [discriminate|].
  destruct (match re_match _ cleaned with Some _ => true | None => false end);
    [discriminate|].
  destruct (existsb _ chat_patterns).
  - apply found_Chr_inv.
  - destruct (re_match colon_chat cleaned) as [mt|] eqn:E; [|discriminate].
    destruct (is_reserved _); [discriminate|].
    intros H. apply andb_true_iff in H. destruct H as [_ H].
    apply found_Chr_inv in H. destruct H as (c & Hin & Hc).
    exists c. split; [|exact Hc].
    apply (group_incl colon_chat cleaned mt 2 E), strip_incl, Hin.
Qed.

Lemma slash_rule_matches (c : Z) (rest : list Z) :
  is_space c = false ->
  found slash_rule (ch "/" :: c :: rest) = true.
Proof.
  intros Hc.
  destruct (span_run (neither is_space) rest) as (xs & r1 & -> & Hxs & Hr1).
  destruct (span_run dot r1) as (ys & r2 & -> & Hys & Hr2).
  assert (E : exists mt, match_here slash_rule [] (ch "/" :: c :: xs ++ ys ++ r2)
                         = Some mt).
  { eexists. unfold match_here, slash_rule.
    rewrite m_cat_cons. cbn [m before].
    rewrite m_cat_cons. unfold star at 1, sp.
    apply (m_greedy_run is_space 0 _ [] (ch "/" :: c :: xs ++ ys ++ r2));
      [reflexivity | constructor | simpl; lia | ].
    cbn [rev app].
    rewrite m_cat_cons.
    change (lit "/") with (cat [Chr (only (ch "/"))]). rewrite m_only.
    rewrite m_cat_cons. unfold plus.
    apply (m_greedy_run (neither is_space) 1 _ (c :: xs) (ys ++ r2)).
    - exact Hr1.
    - constructor; [unfold neither; now rewrite Hc | exact Hxs].
    - simpl. lia.
    - rewrite m_cat_cons. unfold star.
      apply (m_greedy_run dot 0 _ ys r2); [exact Hr2 | exact Hys | lia |].
      rewrite m_cat_nil. reflexivity. }
  destruct E as [mt E].
  unfold found, re_search. cbn [search_from]. now rewrite E.
Qed.
End ClassificationMore.

Section FilterMore.
Context {U : UnicodeData}.

Lemma slash_rule_listed (o : filter_options) : In slash_rule (filter_patterns o).
Proof.
  assert (H : In slash_rule _base_filter_patterns).
  { unfold _base_filter_patterns. do 24 right. left. reflexivity. }
  unfold filter_patterns. destruct (keep_rewards o); [exact H|].
  apply in_or_app. now left.
Qed.

(** X9. With the filter on, a line whose first character after white
    space is a slash followed by a character that is not white space, that
    is a command, is never kept. *)
Theorem should_keep_drops_commands (o : filter_options) (raw : text) (c : Z)
    (rest : text) :
  enabled o = true ->
  strip raw = ch "/" :: c :: rest ->
  is_space c = false ->
  should_keep o raw = false.
Proof.
  intros He Hs Hc. unfold should_keep. rewrite He, Hs. cbn [negb truthy].
  assert (E : existsb (fun pat => found pat (ch "/" :: c :: rest)
                                  || found pat (clean_message (ch "/" :: c :: rest)))
                      (filter_patterns o) = true).
  { apply existsb_exists. exists slash_rule.
    split; [apply slash_rule_listed|].
    now rewrite slash_rule_matches. }
  now rewrite E.
Qed.

Lemma extract_with_shape (pats : list re) (cleaned : text) :
  match extract_with pats cleaned with
  | (Some player, msg) =>
      is_reserved player = false /\ strip player = player /\ strip msg = msg
  | (None, rest) => rest = cleaned
  end.
Proof.
  induction pats as [|pat pats IH]; cbn [extract_with]; [reflexivity|].
  destruct (re_match pat cleaned) as [mt|]; [|exact IH].
  destruct (is_reserved (strip (group 1 mt))) eqn:E; [reflexivity|].
  repeat split; [exact E | apply strip_idem | apply strip_idem].
Qed.

Lemma extract_player_message_reserved (message : text) :
  match extract_player_message message with
  | (Some player, _) => is_reserved player = false
  | (None, _) => True
  end.
Proof.
  pose proof (extract_with_shape extract_patterns (clean_message message)) as H.
  unfold extract_player_message.
  destruct (extract_with extract_patterns (clean_message message)) as [[player|] msg];
    [tauto | exact I].
Qed.

(** X10. When [extract_player_message] gives a speaker, the speaker is not
    one of the reserved tokens and neither the speaker nor the message has
    white space at its ends; when it gives none, the text it returns is the
    cleaned message. *)
Theorem extract_player_message_shape (message : text) :
  match extract_player_message message with
  | (Some player, msg) =>
      is_reserved player = false /\ strip player = player /\ strip msg = msg
  | (None, rest) => rest = clean_message message
  end.
Proof. apply extract_with_shape. Qed.

(** X11. A line that [_process_content] types as chat is one that is not a
    system message and for which [extract_player_message] gave a speaker;
    what is handed on is the chat line of that speaker and of the message
    that came with it, typed chat, with the answer of [should_keep]; the
    speaker is not empty and not a reserved token. *)
Theorem process_line_chat (o : filter_options) (line : text) :
  msg_type_of o line = s "chat" ->
  exists player content,
    extract_player_message (clean_message line) = (Some player, content)
    /\ process_line o line
       = (chat_line player content, s "chat", should_keep o line)
    /\ is_system_message o (clean_message line) = false
    /\ player <> []
    /\ is_reserved player = false.
Proof.
  unfold msg_type_of, process_line.
  destruct (is_system_message o (clean_message line)); [discriminate|].
  pose proof (extract_player_message_reserved (clean_message line)) as Hs.
  destruct (extract_player_message (clean_message line)) as [[player|] content];
    [|discriminate].
  destruct player as [|c player]; [discriminate|].
  cbn [truthy fst snd]. intros _.
  exists (c :: player), content.
  split; [reflexivity|]. split; [reflexivity|]. split; [reflexivity|].
  split; [discriminate | exact Hs].
Qed.

End FilterMore.

(** ** Dispatchers *)

Section DispatcherMore.
Context {U : UnicodeData}.

Lemma on_log_extends w ts message msg_type raw keep :
  exists extra,
    auto_q (on_log w ts message msg_type raw keep) = auto_q w ++ extra
    /\ (length (auto_q w) <= auto_q_maxsize ->
        length (auto_q w ++ extra) <= auto_q_maxsize).
Proof.
  unfold on_log, put_nowait.
  destruct (keep && cb_auto w).
  - destruct (Nat.leb_spec auto_q_maxsize (length (auto_q w))) as [Hfull|Hroom].
    + exists []. cbn [auto_q with_queues]. now rewrite List.app_nil_r.
    + eexists. cbn [auto_q with_queues]. split; [reflexivity|].
      intros _. rewrite length_app. simpl. lia.
  - exists []. cbn [auto_q with_queues]. now rewrite List.app_nil_r.
Qed.

(** X12. Whatever lines [on_log] is given and whatever the settings, the
    queue never holds more than [auto_q_maxsize] = 8 items, and what was
    queued before stays at the front in its order. *)
Theorem feed_queue_bounded (events : list log_event) (w : main_window) :
  length (auto_q w) <= auto_q_maxsize ->
  length (auto_q (feed w events)) <= auto_q_maxsize
  /\ exists extra, auto_q (feed w events) = auto_q w ++ extra.
Proof.
  revert w. induction events as [|e events IH]; intros w Hlen.
  - split; [exact Hlen|]. exists []. simpl. now rewrite List.app_nil_r.
  - cbn [feed fold_left]. fold (feed (on_log_event w e) events).
    unfold on_log_event.
    destruct (on_log_extends w (ev_ts e) (ev_message e) (ev_msg_type e)
                (ev_raw_line e) (ev_keep e)) as (x & Hx & Hb).
    destruct (IH (on_log w (ev_ts e) (ev_message e) (ev_msg_type e)
                    (ev_raw_line e) (ev_keep e))) as (Hl & y & Hy).
    { rewrite Hx. now apply Hb. }
    split; [exact Hl|].
    exists (x ++ y). now rewrite Hy, Hx, List.app_assoc.
Qed.

Lemma auto_translate_extends (tr : translator) (message msg_type : text) (now : Q) :
  _auto_queue_limit (_auto_translate_message tr message msg_type now)
  = _auto_queue_limit tr
  /\ exists extra,
       _auto_translate_queue (_auto_translate_message tr message msg_type now)
       = _auto_translate_queue tr ++ extra
       /\ (length (_auto_translate_queue tr) <= _auto_queue_limit tr ->
           length (_auto_translate_queue tr ++ extra) <= _auto_queue_limit tr).
Proof.
  unfold _auto_translate_message.
  destruct (_ && _ && _).
  { split; [reflexivity|]. exists []. now rewrite List.app_nil_r. }
  destruct (_ && _).
  { split; [reflexivity|]. exists []. now rewrite List.app_nil_r. }
  destruct (Nat.leb_spec (_auto_queue_limit tr) (length (_auto_translate_queue tr)));
    cbn [debounced _auto_queue_limit _auto_translate_queue].
  - split; [reflexivity|]. exists []. now rewrite List.app_nil_r.
  - split; [reflexivity|]. eexists. split; [reflexivity|].
    intros _. rewrite length_app. simpl. lia.
Qed.

(** X13. Whatever messages [_auto_translate_message] is given, its queue
    never holds more than [_auto_queue_limit] items, and what was queued
    before stays at the front in its order. *)
Theorem auto_feed_queue_bounded (calls : list (text * text * Q)) (tr : translator) :
  length (_auto_translate_queue tr) <= _auto_queue_limit tr ->
  length (_auto_translate_queue (auto_feed tr calls)) <= _auto_queue_limit tr
  /\ exists extra,
       _auto_translate_queue (auto_feed tr calls)
       = _auto_translate_queue tr ++ extra.
Proof.
  revert tr. induction calls as [|[[message msg_type] now] calls IH]; intros tr Hlen.
  - split; [exact Hlen|]. exists []. simpl. now rewrite List.app_nil_r.
  - cbn [auto_feed fold_left fst snd].
    fold (auto_feed (_auto_translate_message tr message msg_type now) calls).
    destruct (auto_translate_extends tr message msg_type now)
      as (Hlim & x & Hx & Hb).
    destruct (IH (_auto_translate_message tr message msg_type now))
      as (Hl & y & Hy).
    { rewrite Hlim, Hx. now apply Hb. }
    rewrite Hlim in Hl. split; [exact Hl|].
    exists (x ++ y). now rewrite Hy, Hx, List.app_assoc.
Qed.

(** X16. With language detection on, a message that is not chat and that
    holds a Han code point is not queued for the targets zh-CN and zh: the
    state stays as it is. *)
Theorem auto_translate_skips_chinese (tr : translator) (message msg_type : text)
    (now : Q) :
  detect_var tr = true ->
  lang_var tr = s "zh-CN" \/ lang_var tr = s "zh" ->
  msg_type <> s "chat" ->
  (exists c, In c message /\ han c = true) ->
  _auto_translate_message tr message msg_type now = tr.
Proof.
  intros Hd Hl Ht (c & Hin & Hc). unfold _auto_translate_message.
  rewrite Hd, (detect_of_han message c Hin Hc), (text_eqb_neq _ _ Ht).
  assert (E : same_language CHINESE (lang_var tr) = true)
    by (destruct Hl as [-> | ->]; reflexivity).
  now rewrite E.
Qed.

End DispatcherMore.

(** ** The log monitor *)

(** X17. [_monitor_loop] hands content to [_process_content] only when the
    file has grown since the last turn; the content is then not blank and
    the offset moves to the size just read. *)
Theorem poll_emits_on_growth (last_position : Z) (o : poll_obs) (content : text) :
  snd (poll last_position o) = Some content ->
  exists size,
    getsize o = Some size
    /\ (last_position < size)%Z
    /\ content = new_content o
    /\ strip content <> []
    /\ fst (poll last_position o) = size.
Proof.
  unfold poll. destruct (getsize o) as [size|]; [|discriminate].
  destruct (Z.ltb_spec size last_position); [discriminate|].
  destruct (Z.gtb_spec size last_position) as [Hgt|]; [|discriminate].
  cbn [fst snd].
  destruct (truthy (new_content o) && truthy (strip (new_content o))) eqn:E;
    [|discriminate].
  intros [= <-]. exists size. repeat split; try lia.
  apply andb_true_iff in E. destruct E as [_ E].
  intros Hs. rewrite Hs in E. discriminate.
Qed.

Section ProcessContentMore.
Context {U : UnicodeData}.
Variable py_hash : text -> Z.

Lemma process_content_line_bounded (o : filter_options)
    (acc : list Z * list callback_args) (line : text) :
  length (fst acc) <= last_messages_limit ->
  length (fst (process_content_line py_hash o acc line)) <= last_messages_limit.
Proof.
  intros H. unfold process_content_line.
  destruct (negb (truthy (strip line))); [exact H|].
  destruct (existsb _ (fst acc)); [exact H|].
  destruct (process_line o line) as [[message msg_type] keep]. cbn [fst].
  destruct (Nat.ltb_spec last_messages_limit (length (fst acc ++ [py_hash (strip line)])))
    as [Hover|Hfit]; [|exact Hfit].
  rewrite length_app in Hover. simpl in Hover.
  destruct (fst acc) as [|h l]; simpl in *; [lia|].
  rewrite length_app. simpl. lia.
Qed.

(** X18. [_process_content] keeps [last_messages] within its bound of 100
    hashes, whatever the content. *)
Theorem process_content_bounded (o : filter_options) (last_messages : list Z)
    (content : text) :
  length last_messages <= last_messages_limit ->
  length (fst (_process_content py_hash o last_messages content))
  <= last_messages_limit.
Proof.
  unfold _process_content.
  generalize (split_on 10 (strip content)) as lines.
  generalize (@nil callback_args) as events.
  intros events lines. revert last_messages events.
  induction lines as [|line lines IH]; intros last events H; [exact H|].
  cbn [fold_left].
  pose proof (process_content_line_bounded o (last, events) line H) as Hb.
  destruct (process_content_line py_hash o (last, events) line) as [last' events'].
  now apply IH.
Qed.

Lemma process_content_fold_events (o : filter_options) (lines : list text) :
  forall acc,
    exists extra,
      snd (fold_left (process_content_line py_hash o) lines acc) = snd acc ++ extra
      /\ Forall (fun e => In (cb_raw_line e) lines
                          /\ strip (cb_raw_line e) <> []
                          /\ (cb_message e, cb_msg_type e, cb_keep e)
                             = process_line o (cb_raw_line e))
                extra.
Proof.
  induction lines as [|line lines IH]; intros acc.
  - exists []. split; [simpl; now rewrite List.app_nil_r | constructor].
  - cbn [fold_left].
    destruct (IH (process_content_line py_hash o acc line)) as (x & Hx & Hall).
    assert (Hall' : Forall (fun e => In (cb_raw_line e) (line :: lines)
                          /\ strip (cb_raw_line e) <> []
                          /\ (cb_message e, cb_msg_type e, cb_keep e)
                             = process_line o (cb_raw_line e)) x).
    { eapply List.Forall_impl; [|exact Hall].
      intros e (H1 & H2 & H3). repeat split; auto. now right. }
    rewrite Hx. unfold process_content_line.
    destruct (truthy (strip line)) eqn:Et; cbn [negb]; [|now exists x].
    destruct (existsb _ (fst acc)); [now exists x|].
    destruct (process_line o line) as [[message msg_type] keep] eqn:Ep.
    cbn [snd]. eexists. rewrite <- List.app_assoc. split; [reflexivity|].
    constructor; [|exact Hall'].
    cbn [cb_raw_line cb_message cb_msg_type cb_keep].
    repeat split; [now left | | now rewrite Ep].
    intros Hs. rewrite Hs in Et. discriminate.
Qed.

(** X19. Every call of the callback that [_process_content] makes is for a
    line of the content that is not blank, and carries what [process_line]
    computes for that line. *)
Theorem process_content_events (o : filter_options) (last_messages : list Z)
    (content : text) :
  Forall (fun e => In (cb_raw_line e) (split_on 10 (strip content))
                   /\ strip (cb_raw_line e) <> []
                   /\ (cb_message e, cb_msg_type e, cb_keep e)
                      = process_line o (cb_raw_line e))
         (snd (_process_content py_hash o last_messages content)).
Proof.
  unfold _process_content.
  destruct (process_content_fold_events o (split_on 10 (strip content))
              (last_messages, [])) as (x & Hx & Hall).
  now rewrite Hx.
Qed.

Lemma process_content_fold_remembers (o : filter_options) (lines : list text) :
  forall acc,
    length (fst acc) + length lines <= last_messages_limit ->
    let r := fold_left (process_content_line py_hash o) lines acc in
    incl (fst acc) (fst r)
    /\ forall line, In line lines -> strip line <> [] ->
                    In (py_hash (strip line)) (fst r).
Proof.
  induction lines as [|line lines IH]; intros acc Hlen; cbn [fold_left].
  - split; [apply incl_refl | intros line []].
  - set (acc1 := process_content_line py_hash o acc line).
    assert (H1 : incl (fst acc) (fst acc1)
                 /\ length (fst acc1) <= S (length (fst acc))
                 /\ (strip line <> [] -> In (py_hash (strip line)) (fst acc1))).
    { unfold acc1, process_content_line.
      destruct (strip line) as [|c u] eqn:Es; cbn [truthy negb].
      { repeat split; [apply incl_refl | lia | congruence]. }
      rewrite <- Es.
      destruct (existsb _ (fst acc)) eqn:Ee.
      { repeat split; [apply incl_refl | lia |].
        intros _. apply existsb_exists in Ee. destruct Ee as (h & Hin & Hh).
        apply Z.eqb_eq in Hh. now rewrite Hh. }
      destruct (process_line o line) as [[message msg_type] keep]. cbn [fst].
      assert (Hfit : (last_messages_limit <? length (fst acc ++ [py_hash (strip line)]))
                     = false).
      { apply Nat.ltb_ge. rewrite length_app. simpl in *. lia. }
      rewrite Hfit. repeat split.
      - now apply incl_appl, incl_refl.
      - rewrite length_app. simpl. lia.
      - intros _. apply in_or_app. right. now left. }
    destruct H1 as (Hi & Hl & Hh).
    destruct (IH acc1) as [Hi2 Hr]; [simpl in Hlen; lia|].
    split; [eapply incl_tran; eassumption|].
    intros l [<-|Hin] Hs; [apply Hi2, Hh, Hs | now apply Hr].
Qed.

Lemma process_content_fold_known (o : filter_options) (lines : list text)
    (last : list Z) :
  (forall line, In line lines -> strip line <> [] ->
                In (py_hash (strip line)) last) ->
  forall events,
    fold_left (process_content_line py_hash o) lines (last, events)
    = (last, events).
Proof.
  induction lines as [|line lines IH]; intros Hk events; [reflexivity|].
  cbn [fold_left].
  assert (E : process_content_line py_hash o (last, events) line = (last, events)).
  { unfold process_content_line.
    destruct (strip line) as [|c u] eqn:Es; [reflexivity|]. cbn [truthy negb fst].
    rewrite <- Es.
    assert (Ee : existsb (Z.eqb (py_hash (strip line))) last = true).
    { apply existsb_exists. exists (py_hash (strip line)).
      split; [|apply Z.eqb_refl].
      apply Hk; [now left | rewrite Es; discriminate]. }
    now rewrite Ee. }
  rewrite E. apply IH. intros l Hin. apply Hk. now right.
Qed.

(** X20. When a content is read a second time, and the hashes kept so far
    together with its lines fit within the bound of 100, the second reading
    calls the callback for no line and leaves [last_messages] as it is. *)
Theorem process_content_no_repeat (o : filter_options) (last_messages : list Z)
    (content : text) :
  length last_messages + length (split_on 10 (strip content))
  <= last_messages_limit ->
  _process_content py_hash o
    (fst (_process_content py_hash o last_messages content)) content
  = (fst (_process_content py_hash o last_messages content), []).
Proof.
  intros Hlen. unfold _process_content.
  apply process_content_fold_known.
  apply (process_content_fold_remembers o _ (last_messages, [])). exact Hlen.
Qed.

End ProcessContentMore.

(** ** [_translate_core], statistics and the worker *)

Section CoreMore.
Context {U : UnicodeData}.
Variable normalize : text -> text.

(** X21. With smart translation and language detection on, a text that
    holds a Han code point and is not in the cache is returned as it is for
    the target zh-CN: no call of the provider, nothing cached. *)
Theorem translate_core_same_language
    (provider : engine_call -> engine_reply) (ui : core_ui) (st : core_state)
    (t : text) :
  (exists c, In c t /\ han c = true) ->
  lang_currentText ui = s "zh-CN" ->
  cb_detect ui = true ->
  truthy_opt (cache_get normalize (cache st) t (engine_currentText ui) (s "zh-CN"))
  = false ->
  _translate_core normalize provider ui st t true
  = (CoreResult (Some t) None false (s "zh"), st).
Proof.
  intros (c & Hin & Hc) Hl Hd Hmiss. unfold _translate_core.
  rewrite Hl, Hmiss, Hd, (detect_of_han t c Hin Hc). reflexivity.
Qed.

(** X22. A request that reached the provider and came back without a text
    or with an error leaves the cache as it was, and the same request made
    again reaches the provider again. *)
Theorem translate_core_failure_not_cached
    (provider provider' : engine_call -> engine_reply)
    (ui : core_ui) (st st' : core_state) (t : text) (smart : bool)
    (r : core_result) :
  _translate_core normalize provider ui st t smart = (r, st') ->
  length (engine_calls st') = S (length (engine_calls st)) ->
  truthy_opt (translated r) = false \/ truthy_opt (error r) = true ->
  cache st' = cache st
  /\ length (engine_calls (snd (_translate_core normalize provider' ui st' t smart)))
     = S (length (engine_calls st')).
Proof.
  unfold _translate_core at 1.
  destruct (truthy_opt (cache_get normalize (cache st) t _ _)) eqn:Hhit.
  { intros [= <- <-] Hcalls. lia. }
  destruct (_ && _ && _) eqn:Hsame.
  { intros [= <- <-] Hcalls. lia. }
  set (call := EngineCall _ _ _ _).
  destruct (provider call) as [tr er]. cbn [fst snd].
  destruct (truthy_opt tr && negb (truthy_opt er)) eqn:Hok.
  - intros [= <- <-] _ Hfail. cbn [translated error] in Hfail.
    apply andb_true_iff in Hok. destruct Hok as [H1 H2].
    apply negb_true_iff in H2. destruct Hfail; congruence.
  - intros [= <- <-] _ _. cbn [cache]. split; [reflexivity|].
    unfold _translate_core. cbn [cache engine_calls].
    rewrite Hhit, Hsame.
    destruct (provider' _) as [tr' er']. cbn [fst snd].
    destruct (truthy_opt tr' && negb (truthy_opt er'));
      cbn [snd engine_calls]; rewrite length_app; simpl; lia.
Qed.

End CoreMore.

Section StatsMore.
Variable F : Type.
Variable fadd : F -> F -> F.
Variable fzero : F.

Lemma count_attempt_coherent (st : stats F) success d hit :
  coherent st -> coherent (count_attempt fadd st success d hit).
Proof.
  unfold coherent, count_attempt. cbn.
  intros [H1 H2]. destruct success, hit; lia.
Qed.

Lemma of_engine_record all success d hit engine e :
  of_engine fzero (_stats_record fadd fzero all success d hit engine) e
  = if text_eqb engine e
    then count_attempt fadd (of_engine fzero all e) success d hit
    else of_engine fzero all e.
Proof.
  unfold of_engine, _stats_record, text_eqb. cbn [snd].
  destruct (bool_decide_reflect (engine = e)) as [->|Hne].
  - now rewrite lookup_insert_eq.
  - now rewrite lookup_insert_ne.
Qed.

(** X23. After any series of calls of [_stats_record] from the counters at
    zero, the global counters and those of every engine agree with each
    other: successes and failures add up to the total, and the cache hits
    do not exceed it. *)
Theorem stats_coherent (attempts : list (attempt F)) (engine : text) :
  let all := record_all fadd fzero (no_stats fzero, ∅) attempts in
  coherent (fst all) /\ coherent (of_engine fzero all engine).
Proof.
  cbn zeta.
  assert (H0 : coherent (fst (no_stats fzero, (∅ : gmap text (stats F))))
               /\ coherent (of_engine fzero (no_stats fzero, ∅) engine)).
  { unfold of_engine. cbn [fst snd]. rewrite lookup_empty.
    split; unfold coherent; cbn; lia. }
  revert H0. generalize (no_stats fzero, (∅ : gmap text (stats F))) as all.
  induction attempts as [|[[[success d] hit] e] attempts IH]; intros all H0;
    [exact H0|].
  unfold record_all; cbn [fold_left fst snd]; fold (record_all fadd fzero). apply IH.
  destruct H0 as [Hg He]. split.
  - cbn [_stats_record fst]. now apply count_attempt_coherent.
  - rewrite of_engine_record. destruct (text_eqb e engine); [|exact He].
    now apply count_attempt_coherent.
Qed.

(** X24. After any series of calls of [_stats_record] from the counters at
    zero, the global total is the number of calls and the total of an
    engine is the number of calls made for that engine. *)
Theorem stats_totals (attempts : list (attempt F)) (engine : text) :
  let all := record_all fadd fzero (no_stats fzero, ∅) attempts in
  s_total (fst all) = length attempts
  /\ s_total (of_engine fzero all engine) = attempts_of engine attempts.
Proof.
  cbn zeta.
  assert (G : forall all,
             s_total (fst (record_all fadd fzero all attempts))
             = s_total (fst all) + length attempts
             /\ s_total (of_engine fzero (record_all fadd fzero all attempts) engine)
                = s_total (of_engine fzero all engine) + attempts_of engine attempts).
  { induction attempts as [|[[[success d] hit] e] attempts IH]; intros all.
    - unfold attempts_of. simpl. lia.
    - unfold record_all; cbn [fold_left fst snd]; fold (record_all fadd fzero).
      destruct (IH (_stats_record fadd fzero all success d hit e)) as [H1 H2].
      unfold record_all in H1, H2. rewrite H1, H2.
      rewrite of_engine_record. unfold attempts_of. cbn [List.filter snd].
      destruct (text_eqb e engine); cbn; lia. }
  destruct (G (no_stats fzero, ∅)) as [H1 H2]. rewrite H1, H2.
  unfold of_engine. cbn [snd fst]. rewrite lookup_empty. cbn. lia.
Qed.

End StatsMore.


Section WorkerMore.
Context {U : UnicodeData}.
Variable F : Type.
Variable fadd : F -> F -> F.
Variable fzero : F.
Variable status_insufficient status_done : text.
Variable format_failed : text -> text.
Variable normalize : text -> text.

(** X25. [_translate_worker] counts one attempt for every request that it
    takes up, whatever the outcome, and none for a request from the monitor
    that it turns down for lack of entitlement; such a request also makes
    no call of the provider and adds nothing to the history. *)
Theorem worker_counts_attempts provider ui (w : worker_state F) entitled d now t
    smart from_monitor raw player :
  let w' := _translate_worker fadd fzero status_insufficient status_done format_failed
         normalize provider ui w entitled d now t smart from_monitor raw player in
  s_total (fst (w_stats w'))
  = (if from_monitor && negb entitled then 0 else 1) + s_total (fst (w_stats w))
  /\ (from_monitor && negb entitled = true ->
      w_core w' = w_core w /\ w_history w' = w_history w
      /\ w_consumed w' = w_consumed w).
Proof.
  cbn zeta. unfold _translate_worker.
  destruct (from_monitor && negb entitled) eqn:E.
  { cbn [w_stats w_core w_history w_consumed]. split; [reflexivity | tauto]. }
  split; [|discriminate].
  destruct (_translate_core normalize provider ui (w_core w) t smart) as [r core'].
  destruct (error r) as [e|]; [destruct (truthy e)|];
    destruct from_monitor; reflexivity.
Qed.

(** X26. [_translate_worker] calls [consume] once exactly for a request from
    the monitor that it takes up and that ends without an error message,
    a cache hit or a text returned unchanged included; it never calls it
    for a request from the window. *)
Theorem worker_consumes provider ui (w : worker_state F) entitled d now t
    smart from_monitor raw player :
  w_consumed (_translate_worker fadd fzero status_insufficient status_done format_failed
         normalize provider ui w entitled d now t smart from_monitor raw player)
  = if from_monitor && entitled
       && negb (truthy_opt
                  (error (fst (_translate_core normalize provider ui (w_core w)
                                 t smart))))
    then S (w_consumed w) else w_consumed w.
Proof.
  unfold _translate_worker.
  destruct from_monitor, entitled; cbn [andb negb];
    try reflexivity;
    destruct (_translate_core normalize provider ui (w_core w) t smart) as [r core'];
    cbn [fst]; destruct (error r) as [e|]; cbn [truthy_opt];
    try destruct (truthy e); reflexivity.
Qed.

End WorkerMore.

(** ** The translators *)

Lemma text_eqb_eq (a b : text) : text_eqb a b = true -> a = b.
Proof. unfold text_eqb. apply bool_decide_eq_true_1. Qed.

Section TranslatorsMore.
Context {U : UnicodeData}.

Lemma google_target_listed (to_lang : text) :
  exists l, dict_get (google_target to_lang) lang_map = Some l /\ l <> UNKNOWN.
Proof.
  unfold google_target, mapped. cbn [dict_get].
  repeat (destruct (text_eqb to_lang _); [eexists; split; [reflexivity|discriminate]|]).
  eexists; split; [reflexivity|discriminate].
Qed.

(** X27. On the Google path of [_translate_with_engine] the target that
    reaches [should_translate] is always one that [lang_map] lists,
    whatever target was asked for. *)
Theorem google_path_target_listed (engine t from_lang to_lang q f target : text) :
  _translate_with_engine engine None t from_lang to_lang = Request q f target ->
  exists l, dict_get target lang_map = Some l /\ l <> UNKNOWN.
Proof.
  unfold _translate_with_engine.
  destruct (text_eqb engine (s "baidu")); unfold google_translate;
    destruct (negb (should_translate _ _)); try discriminate;
    destruct (_ || _); try discriminate;
    intros [= _ _ <-]; apply google_target_listed.
Qed.

(** X28. A blank text never leads to a request. On the Google path the
    answer is the error message for an empty text; on the Baidu path, whose
    target zh is not listed in [lang_map], the answer is the blank text
    itself. *)
Theorem blank_text_not_sent (engine : text) (baidu : option BaiduTranslator)
    (t from_lang to_lang : text) :
  Forall (fun c => is_space c = true) t ->
  _translate_with_engine engine baidu t from_lang to_lang
  = match (if text_eqb engine (s "baidu") then baidu else None) with
    | Some _ => Reply (Some t) None
    | None => Reply None (Some msg_empty)
    end.
Proof.
  intros Hb. unfold _translate_with_engine.
  destruct (if text_eqb engine (s "baidu") then baidu else None) as [b|].
  - unfold baidu_translate, should_translate.
    rewrite (detect_blank_text t Hb). reflexivity.
  - unfold google_translate.
    destruct (google_target_listed to_lang) as (l & Hl & Hk).
    rewrite (should_translate_mapped t _ l Hl), (detect_blank_text t Hb).
    assert (E : bool_decide (UNKNOWN = l) = false)
      by (apply bool_decide_eq_false; congruence).
    rewrite E. cbn [negb]. rewrite (strip_blank t Hb).
    cbn [truthy negb]. now rewrite orb_true_r.
Qed.

Lemma smart_google_lang_cases (target_lang : text) :
  In (smart_google_lang target_lang) [s "zh-CN"; s "en"; s "ja"; s "ko"]
  /\ (In target_lang [s "zh-CN"; s "en"; s "ja"; s "ko"]
      -> smart_google_lang target_lang = target_lang)
  /\ (~ In target_lang [s "en"; s "ja"; s "ko"]
      -> smart_google_lang target_lang = s "zh-CN").
Proof.
  unfold smart_google_lang. cbn [dict_get].
  destruct (text_eqb target_lang (s "zh-CN")) eqn:E0.
  { apply text_eqb_eq in E0. subst target_lang.
    split; [now left|]. split; reflexivity. }
  destruct (text_eqb target_lang (s "en")) eqn:E1.
  { apply text_eqb_eq in E1. subst target_lang.
    split; [right; now left|]. split; [reflexivity|].
    intros H. exfalso. apply H. now left. }
  destruct (text_eqb target_lang (s "ja")) eqn:E2.
  { apply text_eqb_eq in E2. subst target_lang.
    split; [do 2 right; now left|]. split; [reflexivity|].
    intros H. exfalso. apply H. right. now left. }
  destruct (text_eqb target_lang (s "ko")) eqn:E3.
  { apply text_eqb_eq in E3. subst target_lang.
    split; [do 3 right; now left|]. split; [reflexivity|].
    intros H. exfalso. apply H. do 2 right. now left. }
  split; [now left|]. split; [|reflexivity].
  intros [<-|[<-|[<-|[<-|[]]]]].
  - now rewrite text_eqb_refl in E0.
  - now rewrite text_eqb_refl in E1.
  - now rewrite text_eqb_refl in E2.
  - now rewrite text_eqb_refl in E3.
Qed.

(** X29. On the Google path, which [_translate_with_engine] takes whenever
    the engine chosen is not baidu or no Baidu translator is set, a text
    that holds a Han code point is answered with the text itself, without
    a request, whenever the target asked for is zh-CN or is not one of the
    eight listed targets. *)
Theorem han_text_not_sent_to_google (engine : text) (baidu : option BaiduTranslator)
    (t from_lang to_lang : text) :
  (exists c, In c t /\ han c = true) ->
  google_target to_lang = s "zh-CN" ->
  engine <> s "baidu" \/ baidu = None ->
  _translate_with_engine engine baidu t from_lang to_lang
  = Reply (Some t) None.
Proof.
  intros (c & Hin & Hc) Hg Hpath. unfold _translate_with_engine.
  assert (E : (if text_eqb engine (s "baidu") then baidu else None) = None).
  { destruct Hpath as [Hne | ->].
    - now rewrite (text_eqb_neq _ _ Hne).
    - now destruct (text_eqb engine (s "baidu")). }
  rewrite E. unfold google_translate. rewrite Hg.
  rewrite (should_translate_mapped t (s "zh-CN") CHINESE eq_refl),
    (detect_of_han t c Hin Hc).
  reflexivity.
Qed.

(** X30. [_do_smart_translate] of the Tk window shows the text unchanged
    exactly when the detected language is that of the target. Otherwise it
    asks Baidu exactly when the engine is baidu and a Baidu translator is
    set, always for the target zh; in every other case it asks Google, for
    the target itself when that is zh-CN, en, ja or ko and for zh-CN
    otherwise. The source language sent is auto when the detected language
    is Unknown and the code of the detected language otherwise. *)
Theorem smart_translate_targets (has_baidu : bool) (engine : text)
    (detected_lang : Language) (target_lang : text) :
  let from_lang :=
    if bool_decide (detected_lang = UNKNOWN) then s "auto"
    else value detected_lang in
  match _do_smart_translate has_baidu engine detected_lang target_lang with
  | ShowUnchanged => same_language detected_lang target_lang = true
  | AskBaidu f to =>
      same_language detected_lang target_lang = false
      /\ engine = s "baidu" /\ has_baidu = true
      /\ to = s "zh" /\ f = from_lang
  | AskGoogle f to =>
      same_language detected_lang target_lang = false
      /\ (engine <> s "baidu" \/ has_baidu = false)
      /\ In to [s "zh-CN"; s "en"; s "ja"; s "ko"]
      /\ (In target_lang [s "zh-CN"; s "en"; s "ja"; s "ko"] -> to = target_lang)
      /\ (~ In target_lang [s "en"; s "ja"; s "ko"] -> to = s "zh-CN")
      /\ f = from_lang
  end.
Proof.
  intros from_lang. unfold _do_smart_translate.
  destruct (same_language detected_lang target_lang); [reflexivity|].
  destruct (text_eqb engine (s "baidu")) eqn:Ee; cbn [andb].
  - apply text_eqb_eq in Ee. destruct has_baidu.
    + repeat (split; [reflexivity || assumption|]). reflexivity.
    + destruct (smart_google_lang_cases target_lang) as (Hin & Hkeep & Hdef).
      split; [reflexivity|]. split; [now right|].
      split; [exact Hin|]. split; [exact Hkeep|]. split; [exact Hdef | reflexivity].
  - destruct (smart_google_lang_cases target_lang) as (Hin & Hkeep & Hdef).
    split; [reflexivity|]. split.
    { left. intros ->. now rewrite text_eqb_refl in Ee. }
    split; [exact Hin|]. split; [exact Hkeep|]. split; [exact Hdef | reflexivity].
Qed.

End TranslatorsMore.

(** ** Worked examples of the further properties *)

Section MoreExamples.
#[local] Existing Instance ascii_ucd.

Lemma detect_blank_witness :
  Forall (fun c => is_space c = true) (s "  ") /\ detect (s "  ") = UNKNOWN.
Proof.
  assert (H : Forall (fun c => is_space c = true) (s "  "))
    by (repeat constructor).
  exact (conj H (detect_blank _ H)).
Defined.

Lemma detect_letter_known_witness :
  (exists c, In c (s "gg") /\ ascii_letter c = true) /\ detect (s "gg") <> UNKNOWN.
Proof.
  assert (H : exists c, In c (s "gg") /\ ascii_letter c = true).
  { exists (ch "g"). split; [now left | reflexivity]. }
  exact (conj H (detect_letter_known _ H)).
Defined.

Lemma should_translate_listed_witness :
  dict_get (s "fr") lang_map = Some FRENCH
  /\ (detect (s "hello") = UNKNOWN -> should_translate (s "hello") (s "fr") = true).
Proof.
  assert (H : dict_get (s "fr") lang_map = Some FRENCH) by reflexivity.
  exact (conj H (proj2 (should_translate_listed (s "hello") (s "fr") FRENCH H))).
Defined.

Lemma clean_message_section_sign_witness :
  In sect (clean_message [sect; sect; ch "a"])
  /\ clean_message [sect; sect; ch "a"] = strip [sect; sect; ch "a"].
Proof.
  assert (H : In sect (clean_message [sect; sect; ch "a"]))
    by (vm_compute; left; reflexivity).
  exact (conj H (clean_message_section_sign _ H)).
Defined.

Lemma is_player_chat_has_letter_witness :
  is_player_chat (s "<Steve> hi") = true
  /\ exists c, In c (s "<Steve> hi") /\ letter_or_han c = true.
Proof.
  assert (H : is_player_chat (s "<Steve> hi") = true) by reflexivity.
  exact (conj H (is_player_chat_has_letter _ H)).
Defined.

Lemma should_keep_drops_commands_witness :
  enabled (FilterOptions true false false) = true
  /\ strip (s " /rejoin") = ch "/" :: ch "r" :: s "ejoin"
  /\ is_space (ch "r") = false
  /\ should_keep (FilterOptions true false false) (s " /rejoin") = false.
Proof.
  repeat (split; [reflexivity|]).
  exact (should_keep_drops_commands (FilterOptions true false false)
           (s " /rejoin") (ch "r") (s "ejoin") eq_refl eq_refl eq_refl).
Defined.

Lemma process_line_chat_witness :
  let o := FilterOptions true false false in
  msg_type_of o (s "<Steve> hi") = s "chat"
  /\ exists player content,
       extract_player_message (clean_message (s "<Steve> hi"))
       = (Some player, content)
       /\ process_line o (s "<Steve> hi")
          = (chat_line player content, s "chat", should_keep o (s "<Steve> hi"))
       /\ is_system_message o (clean_message (s "<Steve> hi")) = false
       /\ player <> [] /\ is_reserved player = false.
Proof.
  intros o.
  assert (H : msg_type_of o (s "<Steve> hi") = s "chat") by reflexivity.
  exact (conj H (process_line_chat _ _ H)).
Defined.

Lemma feed_queue_bounded_witness :
  length (auto_q example_window) <= auto_q_maxsize
  /\ length (auto_q (feed example_window (repeat example_event 12)))
     <= auto_q_maxsize.
Proof.
  assert (H : length (auto_q example_window) <= auto_q_maxsize)
    by (unfold auto_q_maxsize; simpl; lia).
  exact (conj H (proj1 (feed_queue_bounded (repeat example_event 12)
                          example_window H))).
Defined.

Lemma auto_feed_queue_bounded_witness :
  length (_auto_translate_queue example_translator)
  <= _auto_queue_limit example_translator
  /\ length (_auto_translate_queue
               (auto_feed example_translator
                  [(s "hi", s "chat", 0%Q); (s "hi", s "info", 2%Q)]))
     <= _auto_queue_limit example_translator.
Proof.
  assert (H : length (_auto_translate_queue example_translator)
              <= _auto_queue_limit example_translator) by (simpl; lia).
  exact (conj H (proj1 (auto_feed_queue_bounded
                          [(s "hi", s "chat", 0%Q); (s "hi", s "info", 2%Q)]
                          example_translator H))).
Defined.

Lemma auto_translate_debounce_witness :
  let tr := _auto_translate_message example_translator (s "hi") (s "chat") 10%Q in
  _auto_last_msg tr = Some (s "hi")
  /\ ((21 # 2) - _auto_last_ts tr < 1)%Q
  /\ _auto_translate_message tr (s "hi") (s "chat") (21 # 2) = tr.
Proof.
  intros tr.
  assert (H1 : _auto_last_msg tr = Some (s "hi")) by reflexivity.
  assert (H2 : ((21 # 2) - _auto_last_ts tr < 1)%Q) by reflexivity.
  exact (conj H1 (conj H2 (auto_translate_debounce tr (s "hi") (s "chat")
                             (21 # 2) H1 H2))).
Defined.

Lemma auto_translate_queue_limit_witness :
  let calls := [(s "a", s "chat", 0%Q); (s "b", s "chat", 0%Q)] in
  Forall (fun c => snd (fst c) = s "chat") calls
  /\ no_repeat (_auto_last_msg example_translator) calls
  /\ length (_auto_translate_queue example_translator)
     <= _auto_queue_limit example_translator
  /\ length (_auto_translate_queue (auto_feed example_translator calls))
     = Nat.min (length (_auto_translate_queue example_translator) + length calls)
               (_auto_queue_limit example_translator).
Proof.
  intros calls.
  assert (H1 : Forall (fun c => snd (fst c) = s "chat") calls)
    by (repeat constructor).
  assert (H2 : no_repeat (_auto_last_msg example_translator) calls)
    by (simpl; repeat split; discriminate).
  assert (H3 : length (_auto_translate_queue example_translator)
               <= _auto_queue_limit example_translator) by (simpl; lia).
  exact (conj H1 (conj H2 (conj H3
           (auto_translate_queue_limit calls example_translator H1 H2 H3)))).
Defined.

Lemma auto_translate_skips_chinese_witness :
  detect_var example_translator = true
  /\ (lang_var example_translator = s "zh-CN" \/ lang_var example_translator = s "zh")
  /\ s "system" <> s "chat"
  /\ (exists c, In c [0x4F60; 0x597D]%Z /\ han c = true)
  /\ _auto_translate_message example_translator [0x4F60; 0x597D]%Z (s "system") 0%Q
     = example_translator.
Proof.
  assert (H1 : detect_var example_translator = true) by reflexivity.
  assert (H2 : lang_var example_translator = s "zh-CN"
               \/ lang_var example_translator = s "zh") by (left; reflexivity).
  assert (H3 : s "system" <> s "chat") by discriminate.
  assert (H4 : exists c, In c [0x4F60; 0x597D]%Z /\ han c = true).
  { exists 0x4F60%Z. split; [now left | reflexivity]. }
  exact (conj H1 (conj H2 (conj H3 (conj H4
           (auto_translate_skips_chinese _ _ _ 0%Q H1 H2 H3 H4))))).
Defined.

Lemma poll_emits_on_growth_witness :
  snd (poll 10 (PollObs (Some 20%Z) 20 (s "hi"))) = Some (s "hi")
  /\ exists size,
       getsize (PollObs (Some 20%Z) 20 (s "hi")) = Some size
       /\ (10 < size)%Z
       /\ s "hi" = new_content (PollObs (Some 20%Z) 20 (s "hi"))
       /\ strip (s "hi") <> []
       /\ fst (poll 10 (PollObs (Some 20%Z) 20 (s "hi"))) = size.
Proof.
  assert (H : snd (poll 10 (PollObs (Some 20%Z) 20 (s "hi"))) = Some (s "hi"))
    by reflexivity.
  exact (conj H (poll_emits_on_growth _ _ _ H)).
Defined.

Lemma process_content_bounded_witness :
  length (@nil Z) <= last_messages_limit
  /\ length (fst (_process_content example_hash (FilterOptions true false false)
                    [] (s "<Steve> hi")))
     <= last_messages_limit.
Proof.
  assert (H : length (@nil Z) <= last_messages_limit)
    by (unfold last_messages_limit; simpl; lia).
  exact (conj H (process_content_bounded example_hash _ [] (s "<Steve> hi") H)).
Defined.

Lemma process_content_no_repeat_witness :
  let o := FilterOptions true false false in
  let content := [ch "a"; 10; ch "b"]%Z in
  length (@nil Z) + length (split_on 10 (strip content)) <= last_messages_limit
  /\ _process_content example_hash o
       (fst (_process_content example_hash o [] content)) content
     = (fst (_process_content example_hash o [] content), []).
Proof.
  intros o content.
  assert (H : length (@nil Z) + length (split_on 10 (strip content))
              <= last_messages_limit)
    by (unfold last_messages_limit; simpl; lia).
  exact (conj H (process_content_no_repeat example_hash o [] content H)).
Defined.

Lemma translate_core_same_language_witness :
  let ui := CoreUi (s "zh-CN") (s "google") true in
  (exists c, In c [0x4F60; 0x597D]%Z /\ han c = true)
  /\ lang_currentText ui = s "zh-CN"
  /\ cb_detect ui = true
  /\ truthy_opt (cache_get (fun t => t) (cache (CoreState ∅ [])) [0x4F60; 0x597D]%Z
                   (engine_currentText ui) (s "zh-CN")) = false
  /\ _translate_core (fun t => t) example_provider ui (CoreState ∅ [])
       [0x4F60; 0x597D]%Z true
     = (CoreResult (Some [0x4F60; 0x597D]%Z) None false (s "zh"), CoreState ∅ []).
Proof.
  intros ui.
  assert (H1 : exists c, In c [0x4F60; 0x597D]%Z /\ han c = true).
  { exists 0x4F60%Z. split; [now left | reflexivity]. }
  assert (H2 : lang_currentText ui = s "zh-CN") by reflexivity.
  assert (H3 : cb_detect ui = true) by reflexivity.
  assert (H4 : truthy_opt (cache_get (fun t => t) (cache (CoreState ∅ []))
                             [0x4F60; 0x597D]%Z (engine_currentText ui) (s "zh-CN"))
               = false) by reflexivity.
  exact (conj H1 (conj H2 (conj H3 (conj H4
           (translate_core_same_language (fun t => t) example_provider ui
              (CoreState ∅ []) _ H1 H2 H3 H4))))).
Defined.

Lemma translate_core_failure_not_cached_witness :
  let first := _translate_core (fun t => t) example_outage example_ui
                 (CoreState ∅ []) (s "hello") true in
  length (engine_calls (snd first)) = 1
  /\ (truthy_opt (translated (fst first)) = false
      \/ truthy_opt (error (fst first)) = true)
  /\ cache (snd first) = ∅
  /\ length (engine_calls
               (snd (_translate_core (fun t => t) example_provider example_ui
                       (snd first) (s "hello") true))) = 2.
Proof.
  intros first.
  assert (H1 : length (engine_calls (snd first)) = 1) by reflexivity.
  assert (H2 : truthy_opt (translated (fst first)) = false
               \/ truthy_opt (error (fst first)) = true) by (left; reflexivity).
  exact (conj H1 (conj H2
           (translate_core_failure_not_cached (fun t => t) example_outage
              example_provider example_ui (CoreState ∅ []) (snd first) (s "hello")
              true (fst first) (surjective_pairing first) H1 H2))).
Defined.

Lemma google_path_target_listed_witness :
  _translate_with_engine (s "google") None (s "hello") (s "auto") (s "pt")
  = Request (s "hello") (s "en") (s "zh-CN")
  /\ exists l, dict_get (s "zh-CN") lang_map = Some l /\ l <> UNKNOWN.
Proof.
  assert (H : _translate_with_engine (s "google") None (s "hello") (s "auto") (s "pt")
              = Request (s "hello") (s "en") (s "zh-CN")) by reflexivity.
  exact (conj H (google_path_target_listed _ _ _ _ _ _ _ H)).
Defined.

Lemma blank_text_not_sent_witness :
  Forall (fun c => is_space c = true) (s " ")
  /\ _translate_with_engine (s "baidu") (Some (Baidu (s "id") (s "key")))
       (s " ") (s "auto") (s "en")
     = Reply (Some (s " ")) None
  /\ _translate_with_engine (s "google") None (s " ") (s "auto") (s "en")
     = Reply None (Some msg_empty).
Proof.
  assert (H : Forall (fun c => is_space c = true) (s " ")) by (repeat constructor).
  exact (conj H (conj
           (blank_text_not_sent (s "baidu") (Some (Baidu (s "id") (s "key")))
              (s " ") (s "auto") (s "en") H)
           (blank_text_not_sent (s "google") None (s " ") (s "auto") (s "en") H))).
Defined.

Lemma han_text_not_sent_to_google_witness :
  (exists c, In c [0x4F60; 0x597D]%Z /\ han c = true)
  /\ google_target (s "pt") = s "zh-CN"
  /\ _translate_with_engine (s "baidu") None [0x4F60; 0x597D]%Z (s "auto") (s "pt")
     = Reply (Some [0x4F60; 0x597D]%Z) None
  /\ _translate_with_engine (s "google") (Some (Baidu (s "id") (s "key")))
       [0x4F60; 0x597D]%Z (s "auto") (s "zh-CN")
     = Reply (Some [0x4F60; 0x597D]%Z) None.
Proof.
  assert (H1 : exists c, In c [0x4F60; 0x597D]%Z /\ han c = true).
  { exists 0x4F60%Z. split; [now left | reflexivity]. }
  assert (H2 : google_target (s "pt") = s "zh-CN") by reflexivity.
  assert (H3 : s "google" <> s "baidu") by discriminate.
  exact (conj H1 (conj H2 (conj
           (han_text_not_sent_to_google (s "baidu") None _ (s "auto") (s "pt")
              H1 H2 (or_intror eq_refl))
           (han_text_not_sent_to_google (s "google")
              (Some (Baidu (s "id") (s "key"))) _ (s "auto") (s "zh-CN")
              H1 eq_refl (or_introl H3))))).
Defined.

End MoreExamples.
